(** * Hangman over shared memory: the server, the client and the word list

    A shallow embedding of [hangman-common.h], [wordlist.c],
    [hangman-server.c] and the critical section of [hangman-client.c].

    - C strings and [char] arrays are [list ascii]; a string ends at its
      first NUL or, for a heap block, at the end of the list.
    - [unsigned int] counters are [Z] with the wrap-around written out;
      [size_t] counters, which only count list nodes, are [nat].
    - Linked lists are lists, in link order. [wordlist_read] leaves the
      link of the last node of the master list unset; [wordlist_copy] tests
      it, and it is taken to be null. [wordlist_copy] leaves the link of the
      last node of a copy unset as well; [wordlist_free] follows it, so a
      client's list comes with the link that ends it.
    - A call of [rand], the result of [sem_post] and the indeterminate
      contents of a block returned by [malloc] come from an environment
      record that is passed to each step. [malloc] itself succeeds.
    - Semaphore and cleanup calls are recorded as a trace of events.
    - An access outside an array, the dereference of a null or
      indeterminate pointer and a failed [assert] end a run as a [Fault]. *)

From Stdlib Require Import ZArith NArith Ascii String Lia.
From stdpp Require Import base tactics option list.

Local Open Scope Z_scope.

(** ** Outcomes of code that may leave defined behaviour *)

Inductive fault := OutOfBounds | NullDeref | Uninitialised | AssertionFailed.

Inductive outcome (A : Type) :=
  | Ret (a : A)
  | Fault (f : fault).
Arguments Ret {A} a.
Arguments Fault {A} f.

#[global] Instance outcome_ret : MRet outcome := @Ret.
#[global] Instance outcome_bind : MBind outcome := λ A B k m,
  match m with
  | Ret a => k a
  | Fault f => Fault f
  end.

(** ** Characters and C strings *)

Definition NUL : ascii := Ascii.zero.
Definition newline : ascii := "010"%char.
Definition space : ascii := " "%char.
Definition mask : ascii := "_"%char.

#[global] Instance ascii_inhabited : Inhabited ascii := populate NUL.

(** [isalpha] and [toupper] of the "C" locale (no [setlocale] is called),
    on [unsigned char] values. *)
Definition islower (ch : ascii) : bool :=
  ((97 <=? N_of_ascii ch) && (N_of_ascii ch <=? 122))%N.
Definition isupper (ch : ascii) : bool :=
  ((65 <=? N_of_ascii ch) && (N_of_ascii ch <=? 90))%N.
Definition isalpha (ch : ascii) : bool := isupper ch || islower ch.
Definition toupper (ch : ascii) : ascii :=
  if islower ch then ascii_of_N (N_of_ascii ch - 32) else ch.

(** The characters of a C string: everything before the first NUL. *)
Fixpoint c_str (s : list ascii) : list ascii :=
  match s with
  | [] => []
  | ch :: s' => if Ascii.eqb ch NUL then [] else ch :: c_str s'
  end.

Definition strlen (s : list ascii) : nat := length (c_str s).

(** [strncpy(dst, src, n)]: at most [n] characters of [src], padded with
    NUL up to [n]; no terminator when [src] has [n] characters or more. *)
Definition strncpy (dst src : list ascii) (n : nat) : list ascii :=
  let s := take n (c_str src) in
  s ++ replicate (n - length s) NUL ++ drop n dst.

(** [strcspn(s, reject)]. *)
Fixpoint strcspn (s reject : list ascii) : nat :=
  match s with
  | [] => 0%nat
  | ch :: s' =>
      if Ascii.eqb ch NUL || existsb (Ascii.eqb ch) reject then 0%nat
      else S (strcspn s' reject)
  end.

Definition of_string (s : string) : list ascii := list_ascii_of_string s.

(** ** hangman-common.h *)

Definition MAX_ERROR : Z := 8.
Definition MAX_WORD_LENGTH : nat := 80.
Definition UINT_MODULUS : Z := 2 ^ 32.
Definition EXIT_SUCCESS : Z := 0.
Definition EXIT_FAILURE : Z := 1.

Inductive game_state :=
  | game_new
  | game_open
  | game_impossible
  | game_lost
  | game_won.

#[global] Instance game_state_eq_dec : EqDecision game_state.
Proof. solve_decision. Defined.

Record shm := mk_shm {
  shm_errors : Z;
  shm_clientno : Z;
  shm_status : game_state;
  shm_tried_char : ascii;
  shm_word : list ascii;
  shm_terminate : bool
}.

Inductive sem := srv_sem | clt_sem | ret_sem.

#[global] Instance sem_eq_dec : EqDecision sem.
Proof. solve_decision. Defined.

(** Calls that are visible to the other processes. *)
Inductive event :=
  | SemPost (s : sem)
  | SemWait (s : sem)
  | SemClose (s : sem)
  | SemUnlink (s : sem)
  | Munmap
  | ShmUnlink.

#[global] Instance event_eq_dec : EqDecision event.
Proof. solve_decision. Defined.

Definition posts (s : sem) (tr : list event) : nat :=
  length (filter (λ ev, ev = SemPost s) tr).

(** ** wordlist.h, wordlist.c *)

(** The link that ends a list: the [next] field of its last node, or the
    pointer to the list when no node is left. [malloc] does not clear the
    block it returns, so a field that nobody wrote is [Null] only if the
    block held zeroes there; otherwise it is [Wild], the address of no
    node. *)
Inductive link := Null | Wild.

#[global] Instance link_eq_dec : EqDecision link.
Proof. solve_decision. Defined.

Module Wordlist.

Definition MAXLINELEN : nat := 1024.

(** The characters [fgets] takes from the stream: at most [room], and
    none after a newline. *)
Fixpoint fgets_take (room : nat) (f : list ascii) : list ascii * list ascii :=
  match room, f with
  | S room', ch :: f' =>
      if Ascii.eqb ch newline then ([ch], f')
      else let '(l, rest) := fgets_take room' f' in (ch :: l, rest)
  | _, _ => ([], f)
  end.

(** [fgets(buf, size, f)]: [None] at end of file. *)
Definition fgets (buf : list ascii) (size : nat) (f : list ascii)
  : option (list ascii * list ascii) :=
  match f with
  | [] => None
  | _ =>
      let '(l, rest) := fgets_take (size - 1) f in
      Some (l ++ NUL :: drop (S (length l)) buf, rest)
  end.

(** The inner loop of [wordlist_read]: [s] reads, [ptr] writes. *)
Fixpoint filter_line (fuel : nat) (buf : list ascii) (s ptr : nat)
  : outcome (list ascii * nat) :=
  match fuel with
  | O => Fault OutOfBounds
  | S fuel' =>
      if decide (s < MAXLINELEN)%nat then
        let ch := buf !!! s in
        if Ascii.eqb ch NUL then Ret (buf, ptr)
        else if isalpha ch || Ascii.eqb ch space then
          if decide (ptr < MAXLINELEN)%nat then
            filter_line fuel' (<[ptr := toupper ch]> buf) (S s) (S ptr)
          else Fault OutOfBounds
        else filter_line fuel' buf (S s) ptr
      else Fault OutOfBounds
  end.

(** The outer loop. [ptr] is set once, before the loop, and keeps its
    value from one line to the next; [s] is reset for every line. *)
Fixpoint read_lines (fuel : nat) (f buf : list ascii) (ptr : nat)
    (acc : list (list ascii)) : outcome (list (list ascii)) :=
  match fuel with
  | O => Fault OutOfBounds
  | S fuel' =>
      match fgets buf MAXLINELEN f with
      | None => Ret acc
      | Some (buf1, f') =>
          let buf2 := <[strcspn buf1 [newline] := NUL]> buf1 in
          if Ascii.eqb (buf2 !!! 0%nat) NUL then read_lines fuel' f' buf2 ptr acc
          else
            '(buf3, ptr') ← filter_line (S MAXLINELEN) buf2 0 ptr;
            if decide (ptr' < MAXLINELEN)%nat then
              let buf4 := <[ptr' := NUL]> buf3 in
              read_lines fuel' f' buf4 ptr' (acc ++ [c_str buf4])
            else Fault OutOfBounds
      end
  end.

(** [wordlist_read(f, &words, &n)] with [*words] the list [l]. The new
    nodes are linked behind [prev], which starts as the head of [l]; [buf0]
    is what the stack holds where [buf] is placed. The result is the list
    and the count stored in [*n]. *)
Definition wordlist_read (buf0 f : list ascii) (l : list (list ascii))
  : outcome (list (list ascii) * nat) :=
  new ← read_lines (S (length f)) f buf0 0 [];
  mret (match l, new with
        | _, [] => l
        | [], _ => new
        | hd :: _, _ => hd :: new
        end, length new).

(** [wordlist_copy]: a node per node, each value copied with [strcpy].
    [copy->next] is written for every node but the last, so the copy of a
    list with nodes ends in what [malloc] returned in that field, [fresh];
    the copy of the null list is null. The test of [l->next] at the last
    node of [l] reads the link that [wordlist_read] left unset, which is
    taken to be null. *)
Definition wordlist_copy (fresh : link) (l : list (list ascii))
  : list (list ascii) * link :=
  (c_str <$> l, match l with [] => Null | _ => fresh end).

(** [wordlist_free]: the nodes are freed one after the other until the
    link read from the last one is null; a link that is not null is
    followed. *)
Definition wordlist_free (l : list (list ascii)) (last : link)
  : outcome unit :=
  match last with
  | Null => Ret tt
  | Wild => Fault Uninitialised
  end.

End Wordlist.

(** ** hangman-server.c *)

Module Server.

(** [struct game]. [secret] is [None] for a null or indeterminate
    pointer; [obscured] has [MAX_WORD_LENGTH] characters. *)
Record game := mk_game {
  secret : option (list ascii);
  obscured : list ascii;
  status : game_state;
  errors : Z
}.

(** [struct client], without the link to the next client. [words] are
    the nodes of the word list and [words_end] is the link that ends it. *)
Record client := mk_client {
  clientno : Z;
  words : list (list ascii);
  words_end : link;
  current_game : game;
  gamecnt : nat
}.

(** The globals [words], [wordcnt], [clients] and [client_count]. *)
Record server := mk_server {
  srv_words : list (list ascii);
  wordcnt : nat;
  clients : list client;
  client_count : Z
}.

(** What a pass through the loop takes from outside: the value [rand]
    returns if it is called, whether [sem_post] succeeds, and, if a client
    is created, the contents of the block [malloc] returns for it and of
    the [next] field of the block it returns for the last node of the
    client's word list. *)
Record env := mk_env {
  rand_value : N;
  sem_post_ok : bool;
  malloc_junk : game;
  malloc_next : link
}.

Definition with_game (c : client) (g : game) : client :=
  mk_client (clientno c) (words c) (words_end c) g (gamecnt c).

(** [pos = rand() % (wordcnt - c->gamecnt++)], stored in an
    [unsigned int]. *)
Definition draw_index (r : N) (wordcnt gamecnt : nat) : nat :=
  N.to_nat ((r mod N.of_nat (wordcnt - gamecnt)) mod 2 ^ 32)%N.

(** The walk to node [pos] and its removal from the list that ends in
    [last]. The link of the removed node goes into the node before it, or
    into [c->words]: the link that ends the list stays what it was. The
    [assert] stops the walk at a null link; a link that is not null is
    followed. *)
Fixpoint unlink (last : link) (pos : nat) (l : list (list ascii))
  : outcome (list ascii * list (list ascii)) :=
  match l with
  | [] => Fault (match last with Null => NullDeref | Wild => Uninitialised end)
  | v :: rest =>
      match pos with
      | O => Ret (v, rest)
      | S pos' =>
          match rest, last with
          | [], Null => Fault AssertionFailed
          | _, _ => '(x, rest') ← unlink last pos' rest; mret (x, v :: rest')
          end
      end
  end.

(** The loop that fills [obscured] from position [i] on. *)
Fixpoint obscure (sec : list ascii) (i : nat) (obs : list ascii)
  : outcome (list ascii) :=
  match sec with
  | [] => Ret obs
  | ch :: sec' =>
      if decide (i < MAX_WORD_LENGTH)%nat then
        obscure sec' (S i) (<[i := if Ascii.eqb ch space then space else mask]> obs)
      else Fault OutOfBounds
  end.

Definition new_game (wordcnt : nat) (r : N) (c : client) : outcome client :=
  if decide (wordcnt ≤ gamecnt c)%nat then
    let g := current_game c in
    mret (with_game c (mk_game (secret g) (obscured g) game_impossible (errors g)))
  else
    let pos := draw_index r wordcnt (gamecnt c) in
    '(v, rest) ← unlink (words_end c) pos (words c);
    let length := strlen v in
    obs ← obscure (c_str v) 0 (replicate MAX_WORD_LENGTH NUL);
    if decide (length + 1 < MAX_WORD_LENGTH)%nat then
      mret (mk_client (clientno c) rest (words_end c)
              (mk_game (Some v) (<[(length + 1)%nat := NUL]> obs) game_open 0)
              (S (gamecnt c)))
    else Fault OutOfBounds.

(** The loop of [calculate_results] from position [i] on, over
    [obscured], [error] and [won]. *)
Fixpoint scan (try : ascii) (sec : list ascii) (i : nat)
    (obs : list ascii) (error won : bool) : outcome (list ascii * bool * bool) :=
  match sec with
  | [] => Ret (obs, error, won)
  | ch :: sec' =>
      if decide (i < MAX_WORD_LENGTH)%nat then
        let obs1 := if Ascii.eqb ch try then <[i := try]> obs else obs in
        let error1 := if Ascii.eqb ch try then false else error in
        scan try sec' (S i) obs1 error1
          (won && negb (Ascii.eqb (obs1 !!! i) mask))
      else Fault OutOfBounds
  end.

Definition calculate_results (c : client) (try : ascii) : outcome client :=
  let g := current_game c in
  match secret g with
  | None => Fault Uninitialised
  | Some v =>
      '(obs, error, won) ← scan try (c_str v) 0 (obscured g) true true;
      if won : bool then mret (with_game c (mk_game (Some v) obs game_won (errors g)))
      else if negb error then mret (with_game c (mk_game (Some v) obs (status g) (errors g)))
      else
        let e := (errors g + 1) mod UINT_MODULUS in
        if decide (e > MAX_ERROR) then
          mret (with_game c
                  (mk_game (Some v) (strncpy obs v MAX_WORD_LENGTH) game_lost e))
        else mret (with_game c (mk_game (Some v) obs (status g) e))
  end.

(** What a run of the loop body ends in. *)
Inductive result :=
  | Continue (st : server) (sh : shm) (tr : list event)
  | Exit (code : Z) (sh : shm) (tr : list event)
  | Crash (f : fault).

Definition set_terminate (b : bool) (sh : shm) : shm :=
  mk_shm (shm_errors sh) (shm_clientno sh) (shm_status sh)
         (shm_tried_char sh) (shm_word sh) b.

(** The loop of [free_resources] over the clients: the word list of a
    client is freed, then the gate is posted for it. *)
Fixpoint free_clients (l : list client) : outcome (list event) :=
  match l with
  | [] => Ret []
  | c :: l' =>
      _ ← Wordlist.wordlist_free (words c) (words_end c);
      tr ← free_clients l';
      mret (SemPost clt_sem :: tr)
  end.

(** [free_resources]: [shared] is [None] while nothing is mapped. *)
Definition free_resources (shared : option shm) (semaphores_set : bool)
    (st : server) : outcome (option shm * list event) :=
  '(shared', tr1) ←
    match shared with
    | Some sh =>
        tr ← free_clients (clients st);
        mret (Some (set_terminate true sh), tr ++ [Munmap; ShmUnlink])
    | None => mret (None, [])
    end;
  mret (shared',
        tr1 ++ if semaphores_set
               then [SemClose srv_sem; SemClose clt_sem; SemClose ret_sem;
                     SemUnlink srv_sem; SemUnlink clt_sem; SemUnlink ret_sem]
               else []).

(** [bail_out] once the memory is mapped and the semaphores are open. *)
Definition bail_out (exitcode : Z) (sh : shm) (st : server) (tr : list event)
  : result :=
  match free_resources (Some sh) true st with
  | Ret (_, tr') => Exit exitcode (set_terminate true sh) (tr ++ tr')
  | Fault f => Crash f
  end.

(** The search for the client with number [no]: the nodes before it, the
    node, the nodes after it. *)
Fixpoint find_client (no : Z) (l : list client)
  : option (list client * client * list client) :=
  match l with
  | [] => None
  | c :: l' =>
      if clientno c =? no then Some ([], c, l')
      else '(pre, cur, suf) ← find_client no l'; Some (c :: pre, cur, suf)
  end.

(** [client_count++] read as an [int]. *)
Definition to_int (n : Z) : Z :=
  if decide (n < 2 ^ 31) then n else n - UINT_MODULUS.

(** The client a fresh block becomes: its game is left as [malloc]
    returned it, with a pointer that must not be followed. *)
Definition fresh_client (e : env) (st : server) : client :=
  let copy := Wordlist.wordlist_copy (malloc_next e) (srv_words st) in
  mk_client (to_int (client_count st)) copy.1 copy.2
            (mk_game None (obscured (malloc_junk e)) (status (malloc_junk e))
                     (errors (malloc_junk e)))
            0.

(** The first part of a pass through the loop of [main]: a new client at
    the head of the list for the number -1, the search otherwise. The
    result is [cur] between the nodes before and after it, and the value of
    [client_count]; [None] when the search ends at the null pointer. *)
Definition resolve (e : env) (sh : shm) (st : server)
  : option (list client * client * list client * Z) :=
  if shm_clientno sh =? -1 then
    Some ([], fresh_client e st, clients st,
          (client_count st + 1) mod UINT_MODULUS)
  else
    '(pre, cur, suf) ← find_client (shm_clientno sh) (clients st);
    Some (pre, cur, suf, client_count st).

(** One pass through the loop of [main], from the return of
    [sem_wait(srv_sem)] on. *)
Definition dispatch (e : env) (sh : shm) (st : server) : result :=
  match resolve e sh st with
  | None => bail_out EXIT_FAILURE sh st []
  | Some (pre, cur, suf, count) =>
      if shm_terminate sh then
        match Wordlist.wordlist_free (words cur) (words_end cur) with
        | Fault f => Crash f
        | Ret _ =>
            let st' := mk_server (srv_words st) (wordcnt st) (pre ++ suf)
                                 count in
            let sh' := set_terminate false sh in
            if sem_post_ok e then Continue st' sh' [SemPost clt_sem]
            else bail_out EXIT_FAILURE sh' st' [SemPost clt_sem]
        end
      else
        match (if decide (shm_status sh = game_new)
               then new_game (wordcnt st) (rand_value e) cur
               else calculate_results cur (shm_tried_char sh)) with
        | Fault f => Crash f
        | Ret cur' =>
            let st' := mk_server (srv_words st) (wordcnt st)
                                 (pre ++ cur' :: suf) count in
            let g := current_game cur' in
            let sh' := mk_shm (errors g) (clientno cur') (status g)
                              (shm_tried_char sh)
                              (strncpy (shm_word sh) (obscured g) MAX_WORD_LENGTH)
                              (shm_terminate sh) in
            if sem_post_ok e then Continue st' sh' [SemPost ret_sem]
            else bail_out EXIT_FAILURE sh' st' [SemPost ret_sem]
        end
  end.

(** The loop of [main]: one entry per request that wakes the server up,
    with what the clients have done to the mailbox since the last pass. *)
Fixpoint serve (reqs : list (env * (shm → shm))) (st : server) (sh : shm)
  : result :=
  match reqs with
  | [] => Continue st sh []
  | (e, w) :: reqs' =>
      match dispatch e (w sh) st with
      | Continue st' sh' tr =>
          match serve reqs' st' sh' with
          | Continue st'' sh'' tr' => Continue st'' sh'' (tr ++ tr')
          | Exit code sh'' tr' => Exit code sh'' (tr ++ tr')
          | Crash f => Crash f
          end
      | r => r
      end
  end.

(** The mailbox as [ftruncate] leaves a new object. *)
Definition shm_zero : shm :=
  mk_shm 0 0 game_new NUL (replicate MAX_WORD_LENGTH NUL) false.

(** The globals once the dictionary [f] has been read. *)
Definition startup (buf0 f : list ascii) : outcome server :=
  '(ws, n) ← Wordlist.wordlist_read buf0 f [];
  mret (mk_server ws n [] 0).


End Server.

(** ** hangman-client.c: the exchange with the server *)

Module Client.

(** The variables of [main] that take part in the exchange. *)
Record state := mk_state {
  clientno : Z;
  game_status : game_state;
  c : ascii;
  errors : Z;
  buf : list ascii
}.

Definition initial : state :=
  mk_state (-1) game_new NUL 0 (replicate MAX_WORD_LENGTH NUL).

Inductive result :=
  | Continue (cs : state) (sh : shm) (tr : list event)
  | Exit (code : Z) (sh : shm) (tr : list event).

Definition closes : list event :=
  [SemClose srv_sem; SemClose clt_sem; SemClose ret_sem].

(** [free_resources(soft)] with the memory mapped; [wait_ok] tells whether
    [sem_wait(clt_sem)] returns 0. *)
Definition free_resources (soft wait_ok : bool) (cs : state) (sh : shm)
  : shm * list event :=
  if soft then
    if wait_ok then
      (mk_shm (shm_errors sh) (clientno cs) (shm_status sh)
              (shm_tried_char sh) (shm_word sh) true,
       [SemWait clt_sem; SemPost srv_sem; Munmap] ++ closes)
    else (sh, [SemWait clt_sem; Munmap] ++ closes)
  else (sh, Munmap :: closes).

Definition bail_out (exitcode : Z) (wait_ok : bool) (cs : state) (sh : shm)
    (tr : list event) : result :=
  let '(sh', tr') := free_resources true wait_ok cs sh in
  Exit exitcode sh' (tr ++ tr').

(** The three fields a request sets in the mailbox. *)
Definition request (cs : state) (sh : shm) : shm :=
  mk_shm (shm_errors sh) (clientno cs) (game_status cs) (c cs)
         (shm_word sh) (shm_terminate sh).

(** From the return of [sem_wait(clt_sem)] to [sem_post(srv_sem)]. *)
Definition send (post_ok wait_ok : bool) (cs : state) (sh : shm) : result :=
  if shm_terminate sh then
    let '(sh', tr) := free_resources false wait_ok cs sh in
    Exit EXIT_FAILURE sh' tr
  else
    let sh' := request cs sh in
    if post_ok then Continue cs sh' [SemPost srv_sem]
    else bail_out EXIT_FAILURE wait_ok cs sh' [SemPost srv_sem].

(** From the return of [sem_wait(ret_sem)] to [sem_post(clt_sem)]. *)
Definition receive (post_ok wait_ok : bool) (cs : state) (sh : shm) : result :=
  let cs' := mk_state (shm_clientno sh) (shm_status sh) (c cs) (shm_errors sh)
                      (strncpy (buf cs) (shm_word sh) MAX_WORD_LENGTH) in
  if post_ok then Continue cs' sh [SemPost clt_sem]
  else bail_out EXIT_FAILURE wait_ok cs' sh [SemPost clt_sem].

(** What stands before a request. While a game is open the client reads a
    guess, here a single letter it has not tried, and keeps it in upper
    case; otherwise it reads nothing. After a game the answer [y] asks for
    a new one. *)
Inductive input :=
  | Guess (letter : ascii)
  | NewGame.

Definition prepare (i : input) (cs : state) : state :=
  match i with
  | Guess letter =>
      if decide (game_status cs = game_open)
      then mk_state (clientno cs) (game_status cs) (toupper letter)
                    (errors cs) (buf cs)
      else cs
  | NewGame => mk_state (clientno cs) game_new (c cs) 0 (buf cs)
  end.

End Client.

(** ** One client and the server *)

(** A response as the client sees it: status, word and error count. *)
Definition response : Type := game_state * list ascii * Z.

Definition response_of (sh : shm) : response :=
  (shm_status sh, c_str (shm_word sh), shm_errors sh).

(** The client sends one request per input and the server answers it;
    all semaphore calls succeed. The result is the list of the responses
    the client finds in the mailbox. *)
Fixpoint play (rs : list N) (junk : Server.game) (fresh : link)
    (ins : list Client.input)
    (cs : Client.state) (st : Server.server) (sh : shm)
  : option (list response) :=
  match ins with
  | [] => Some []
  | i :: ins' =>
      match Client.send true true (Client.prepare i cs) sh with
      | Client.Continue cs1 sh1 _ =>
          match Server.dispatch (Server.mk_env (hd 0%N rs) true junk fresh)
                                sh1 st with
          | Server.Continue st' sh2 _ =>
              match Client.receive true true cs1 sh2 with
              | Client.Continue cs2 sh3 _ =>
                  (response_of sh2 ::.)
                    <$> play (tl rs) junk fresh ins' cs2 st' sh3
              | _ => None
              end
          | _ => None
          end
      | _ => None
      end
  end.

(** ** hangman-client.c: the rest of the loop of [main] *)

Module Player.

(** [tolower] of the "C" locale. *)
Definition tolower (ch : ascii) : ascii :=
  if isupper ch then ascii_of_N (N_of_ascii ch + 32) else ch.

(** [round], [tried_chars], [wins] and [losses] of [main], and what is
    left of standard input. *)
Record state := mk_state {
  round : nat;
  tried_chars : list ascii;
  wins : Z;
  losses : Z;
  stdin : list ascii
}.

Definition initial (input : list ascii) : state :=
  mk_state 0 (replicate MAX_WORD_LENGTH NUL) 0 0 input.

(** The three refusals of a guess. *)
Inductive message := OnlyOneLetter | ValidLetter | NotTriedYet.

(** What the prompt for a guess ends in; [EndOfInput] is the null result
    of [fgets], on which [main] bails out. *)
Inductive reading :=
  | Accepted (cs : Client.state) (ps : state)
  | Rejected (m : message) (cs : Client.state) (ps : state)
  | EndOfInput.

(** The block under [if (game_status == game_open)]: the line goes into
    [buf], its first character in upper case into [c], and an accepted
    letter into [tried_chars]. *)
Definition read_guess (cs : Client.state) (ps : state) : outcome reading :=
  match Wordlist.fgets (Client.buf cs) MAX_WORD_LENGTH (stdin ps) with
  | None => Ret EndOfInput
  | Some (buf', rest) =>
      let c := toupper (buf' !!! 0%nat) in
      let cs' := Client.mk_state (Client.clientno cs) (Client.game_status cs) c
                                 (Client.errors cs) buf' in
      let ps' := mk_state (round ps) (tried_chars ps) (wins ps) (losses ps) rest in
      if negb (Ascii.eqb (buf' !!! 1%nat) newline) then
        Ret (Rejected OnlyOneLetter cs' ps')
      else if negb (isalpha c) then Ret (Rejected ValidLetter cs' ps')
      else if existsb (Ascii.eqb c) (take (round ps) (tried_chars ps)) then
        Ret (Rejected NotTriedYet cs' ps')
      else if decide (round ps < MAX_WORD_LENGTH)%nat then
        Ret (Accepted cs'
               (mk_state (S (round ps)) (<[round ps := c]> (tried_chars ps))
                         (wins ps) (losses ps) rest))
      else Fault OutOfBounds
  end.

(** Whether the loop goes on after a response. *)
Inductive next :=
  | Next (cs : Client.state) (ps : state)
  | Stop (cs : Client.state) (ps : state).

(** From the end of the exchange to the end of the loop body: the tally
    after a game and the answer to the question whether to play again,
    which is read with [fgetc] into [c] (at the end of the input [fgetc]
    returns -1). The texts printed are left out. *)
Definition after_response (cs : Client.state) (ps : state) : next :=
  if decide (Client.game_status cs = game_impossible) then Stop cs ps
  else if decide (Client.game_status cs = game_open) then Next cs ps
  else
    let wins' := if decide (Client.game_status cs = game_won)
                 then (wins ps + 1) mod UINT_MODULUS else wins ps in
    let losses' := if decide (Client.game_status cs = game_lost)
                   then (losses ps + 1) mod UINT_MODULUS else losses ps in
    match stdin ps with
    | [] =>
        Stop (Client.mk_state (Client.clientno cs) (Client.game_status cs)
                              "255" (Client.errors cs) (Client.buf cs))
             (mk_state (round ps) (tried_chars ps) wins' losses' [])
    | ch :: rest =>
        if Ascii.eqb (tolower ch) "y" then
          Next (Client.mk_state (Client.clientno cs) game_new (tolower ch) 0
                                (Client.buf cs))
               (mk_state 0 (replicate MAX_WORD_LENGTH NUL) wins' losses' rest)
        else
          Stop (Client.mk_state (Client.clientno cs) (Client.game_status cs)
                                (tolower ch) (Client.errors cs) (Client.buf cs))
               (mk_state (round ps) (tried_chars ps) wins' losses' rest)
    end.

End Player.

(** One exchange in which every semaphore call succeeds: the client sends
    its request, the server makes a pass, the client takes the response. *)
Definition exchange (e : Server.env) (cs : Client.state) (st : Server.server)
    (sh : shm) : option (Client.state * Server.server * shm) :=
  match Client.send true true cs sh with
  | Client.Continue cs1 sh1 _ =>
      match Server.dispatch e sh1 st with
      | Server.Continue st' sh2 _ =>
          match Client.receive true true cs1 sh2 with
          | Client.Continue cs2 sh3 _ => Some (cs2, st', sh3)
          | _ => None
          end
      | _ => None
      end
  | _ => None
  end.

(** ** Vocabulary of the statements *)

Import Server.

(** No character of [sec] is the guess. *)
Definition misses (try : ascii) (sec : list ascii) : bool :=
  forallb (λ ch, negb (Ascii.eqb ch try)) sec.

(** The buffer after a guess: the letter is shown wherever the secret
    has it. *)
Fixpoint reveal (try : ascii) (sec obs : list ascii) : list ascii :=
  match sec, obs with
  | ch :: sec', o :: obs' =>
      (if Ascii.eqb ch try then try else o) :: reveal try sec' obs'
  | _, _ => obs
  end.

(** No position of the word shows the mask. *)
Definition all_shown (sec obs : list ascii) : bool :=
  forallb (λ o, negb (Ascii.eqb o mask)) (take (length sec) obs).

(** A word that [new_game] can mask without leaving [obscured]. *)
Definition fits (w : list ascii) : Prop :=
  (strlen w + 1 < MAX_WORD_LENGTH)%nat.

(** The obscured buffer is a view of the secret: every position shows the
    character of the secret or, where that is not a space, the mask. *)
Definition masked_view (sec obs : list ascii) : Prop :=
  ∀ j, (j < length sec)%nat →
       obs !!! j = sec !!! j ∨ (obs !!! j = mask ∧ sec !!! j ≠ space).

(** No position that is not a space is masked. *)
Definition unmasked (sec obs : list ascii) : Prop :=
  ∀ j, (j < length sec)%nat → sec !!! j ≠ space → obs !!! j ≠ mask.

(** *** Properties of a session *)

(** Games the session has played and words it has left add up to [wc]. *)
Definition counted (wc : nat) (c : client) : Prop :=
  (gamecnt c + length (words c))%nat = wc.

(** An open game has an error count within the maximum. *)
Definition open_within_max (c : client) : Prop :=
  status (current_game c) = game_open →
  0 ≤ errors (current_game c) ≤ MAX_ERROR.

(** What [new_game] establishes for the game it opens, and what a guess on
    an open game requires. *)
Definition open_well_formed (c : client) : Prop :=
  status (current_game c) = game_open →
  ∃ v, secret (current_game c) = Some v
       ∧ fits v
       ∧ length (obscured (current_game c)) = MAX_WORD_LENGTH
       ∧ 0 ≤ errors (current_game c) ≤ MAX_ERROR.

(** The buffer of a game with a secret has its size and is a view of the
    secret. *)
Definition views_secret (c : client) : Prop :=
  ∀ v, secret (current_game c) = Some v →
       length (obscured (current_game c)) = MAX_WORD_LENGTH
       ∧ masked_view (c_str v) (obscured (current_game c)).

(** The globals that no request changes, and a property of every
    session. *)
Definition all_sessions (ws : list (list ascii)) (wc : nat)
    (P : client → Prop) (st : server) : Prop :=
  srv_words st = ws ∧ wordcnt st = wc ∧ Forall P (clients st).

(** *** Runs *)

(** A sequence of New requests to one session, one value of [rand] per
    request: the secrets drawn, in order, and the session afterwards. *)
Fixpoint new_games (wordcnt : nat) (rs : list N) (c : client)
  : outcome (list (list ascii) * client) :=
  match rs with
  | [] => Ret ([], c)
  | r :: rs' =>
      c1 ← new_game wordcnt r c;
      '(drawn, c2) ← new_games wordcnt rs' c1;
      mret (if decide (wordcnt ≤ gamecnt c)%nat then drawn
            else match secret (current_game c1) with
                 | Some v => v :: drawn
                 | None => drawn
                 end, c2)
  end.


(** An environment in which [rand] returns 0, [sem_post] succeeds and
    [malloc] returns zeroes. *)
Definition quiet_env : env :=
  mk_env 0 true (mk_game None (replicate MAX_WORD_LENGTH NUL) game_new 0) Null.

(** The requests of client [no] as the server meets them in the mailbox:
    what [main] writes before [sem_post(srv_sem)], and what
    [free_resources(true)] writes. *)
Definition new_request (no : Z) : shm → shm :=
  Client.request (Client.mk_state no game_new NUL 0 []).
Definition guess_request (no : Z) (letter : ascii) : shm → shm :=
  Client.request (Client.mk_state no game_open letter 0 []).
Definition terminate_request (no : Z) (sh : shm) : shm :=
  (Client.free_resources true true (Client.mk_state no game_open NUL 0 []) sh).1.

(** The dictionary with the one word CAT, and the server that has read
    it. *)
Definition cat_file : list ascii := of_string "CAT
".
Definition cat_server : server := mk_server [of_string "CAT"] 1 [] 0.

(** Client 0 in a game for CAT, and the server with that one session. *)
Definition cat_client (shown : list ascii) (errs : Z) : client :=
  mk_client 0 [] Null
    (mk_game (Some (of_string "CAT")) (shown ++ replicate 77 NUL) game_open errs)
    1.
Definition cat_session : server :=
  mk_server [of_string "CAT"] 1 [cat_client (of_string "___") 0] 1.

(** An environment in which the block for the last node of a copy does
    not come zeroed, client 0 as a New request then makes it, and the
    server with that one session. *)
Definition stale_env : env :=
  mk_env 0 true (mk_game None (replicate MAX_WORD_LENGTH NUL) game_new 0) Wild.

(** A client registers, gets a game and misses eight or nine times. *)
Definition eight_misses : list (env * (shm → shm)) :=
  (quiet_env, new_request (-1))
    :: ((λ l, (quiet_env, guess_request 0 l)) <$> of_string "ZYXWVUSR").
Definition nine_misses : list (env * (shm → shm)) :=
  (quiet_env, new_request (-1))
    :: ((λ l, (quiet_env, guess_request 0 l)) <$> of_string "ZYXWVUSRQ").

(** *** Three statements of the specification, as they are worded *)



(** C8: after any requests, every session's error count and the mailbox's
    are within [MAX_ERROR]. *)
Definition errors_within_max : Prop :=
  ∀ (buf0 f : list ascii) (reqs : list (env * (shm → shm)))
    (st0 st : server) (sh : shm) (tr : list event),
    startup buf0 f = Ret st0 →
    serve reqs st0 shm_zero = Continue st sh tr →
    Forall (λ c, errors (current_game c) ≤ MAX_ERROR) (clients st)
    ∧ shm_errors sh ≤ MAX_ERROR.

(** *** The word loader as the interface describes it *)

(** The lines of a stream; a last line needs no newline. *)
Fixpoint split_lines (f cur : list ascii) : list (list ascii) :=
  match f with
  | [] => match cur with [] => [] | _ => [cur] end
  | ch :: f' =>
      if Ascii.eqb ch newline then cur :: split_lines f' []
      else split_lines f' (cur ++ [ch])
  end.

(** One word per line that is not blank: the letters and spaces of the
    line, in upper case. *)
Definition load_words_spec (f : list ascii) : list (list ascii) * nat :=
  let ls := List.filter (λ l, negb (Nat.eqb (length l) 0)) (split_lines f []) in
  let ws := (λ l, toupper <$>
                  List.filter (λ ch, isalpha ch || Ascii.eqb ch space) l) <$> ls in
  (ws, length ws).

Definition two_lines : list ascii := of_string "ab
c
".

(** *** More vocabulary *)

#[global] Instance ascii_eq_decision : EqDecision ascii := Ascii.ascii_dec.

(** A sequence of guesses to one session. *)
Fixpoint guesses (tries : list ascii) (c : client) : outcome client :=
  match tries with
  | [] => Ret c
  | try :: tries' => c1 ← calculate_results c try; guesses tries' c1
  end.

(** The session the search finds for number [no]. *)
Definition session_in (no : Z) (l : list client) : option client :=
  (λ found, found.1.2) <$> find_client no l.
Definition session_of (no : Z) (st : server) : option client :=
  session_in no (clients st).

(** The numbers handed out so far are those below [client_count], each
    once. *)
Definition ids_distinct (st : server) : Prop :=
  0 ≤ client_count st
  ∧ Forall (λ c, 0 ≤ clientno c < client_count st) (clients st)
  ∧ NoDup (clientno <$> clients st).

(** The characters [wordlist_read] keeps. *)
Definition kept (ch : ascii) : bool := isalpha ch || Ascii.eqb ch space.

(** The word [wordlist_read] is to make of a line. *)
Definition word_of (line : list ascii) : list ascii :=
  toupper <$> List.filter kept line.

(** The letters tried in this round are [round] different capitals in an
    array of [MAX_WORD_LENGTH] characters that is zero behind them. *)
Definition tried_ok (ps : Player.state) : Prop :=
  length (Player.tried_chars ps) = MAX_WORD_LENGTH
  ∧ NoDup (take (Player.round ps) (Player.tried_chars ps))
  ∧ Forall (λ ch, isupper ch = true)
           (take (Player.round ps) (Player.tried_chars ps))
  ∧ (∀ j, (Player.round ps ≤ j)%nat → Player.tried_chars ps !!! j = NUL).

(** The capitals. *)
Definition capitals : list ascii := of_string "ABCDEFGHIJKLMNOPQRSTUVWXYZ".

(** *** More concrete states *)

(** A session with two words left and no game yet. *)
Definition two_word_client : client :=
  mk_client 0 [of_string "CAT"; of_string "A DOG"] Null
    (mk_game None [] game_new 0) 0.

(** Client 0 after the ninth miss in its game for CAT. *)
Definition lost_cat : client :=
  mk_client 0 [] Null
    (mk_game (Some (of_string "CAT")) (of_string "CAT" ++ replicate 77 NUL)
             game_lost 9) 1.

(** The server with the one word CAT and the sessions of two clients. *)
Definition two_sessions : server :=
  mk_server [of_string "CAT"] 1
    [mk_client 1 [] Null
       (mk_game (Some (of_string "CAT")) (of_string "___" ++ replicate 77 NUL)
                game_open 0) 1;
     cat_client (of_string "___") 0] 2.

(** A client in an open game, and one that has just won. *)
Definition playing : Client.state :=
  Client.mk_state 0 game_open NUL 0 (of_string "___" ++ replicate 77 NUL).
Definition winner : Client.state :=
  Client.mk_state 0 game_won "T" 1 (of_string "CAT" ++ replicate 77 NUL).

(** * Properties *)

(** ** Outcomes and C strings *)

Lemma bind_Ret {A B} (m : outcome A) (k : A → outcome B) (b : B) :
  m ≫= k = Ret b ↔ ∃ a, m = Ret a ∧ k a = Ret b.
Proof.
  destruct m as [a|f]; simpl; split.
  - intros H. by exists a.
  - by intros (a' & [= <-] & H).
  - intros [=].
  - by intros (a' & [=] & _).
Qed.

Lemma c_str_no_NUL (s : list ascii) : NUL ∉ c_str s.
Proof.
  induction s as [|ch s IH]; simpl; [apply not_elem_of_nil|].
  destruct (Ascii.eqb_spec ch NUL) as [->|Hne]; [apply not_elem_of_nil|].
  rewrite elem_of_cons. intros [Heq|H]; [by apply Hne | by apply IH].
Qed.

Lemma c_str_app_NUL (s t : list ascii) : NUL ∉ s → c_str (s ++ NUL :: t) = s.
Proof.
  induction s as [|ch s IH]; simpl; intros Hn; [done|].
  rewrite not_elem_of_cons in Hn. destruct Hn as [Hne Hn].
  destruct (Ascii.eqb_spec ch NUL) as [->|_]; [done|]. by rewrite IH.
Qed.

Lemma c_str_id (s : list ascii) : NUL ∉ s → c_str s = s.
Proof.
  induction s as [|ch s IH]; simpl; intros Hn; [done|].
  rewrite not_elem_of_cons in Hn. destruct Hn as [Hne Hn].
  destruct (Ascii.eqb_spec ch NUL) as [->|_]; [done|]. by rewrite IH.
Qed.

Lemma c_str_idemp (s : list ascii) : c_str (c_str s) = c_str s.
Proof. apply c_str_id, c_str_no_NUL. Qed.

(** A buffer of [n] characters holds the string it was filled from. *)
Lemma c_str_strncpy (dst src : list ascii) (n : nat) :
  (strlen src ≤ n)%nat → length dst = n →
  c_str (strncpy dst src n) = c_str src.
Proof.
  unfold strncpy, strlen. intros Hlen Hdst.
  rewrite take_ge by done.
  rewrite drop_ge by lia. rewrite app_nil_r.
  destruct (n - length (c_str src))%nat as [|k] eqn:Hk; simpl.
  - rewrite app_nil_r. apply c_str_idemp.
  - apply c_str_app_NUL, c_str_no_NUL.
Qed.

Lemma length_strncpy (dst src : list ascii) (n : nat) :
  length dst = n → length (strncpy dst src n) = n.
Proof.
  unfold strncpy. intros Hdst.
  rewrite !length_app, length_replicate, length_drop, length_take. lia.
Qed.

(** ** The guess loop *)

Lemma misses_spec (try : ascii) (sec : list ascii) :
  misses try sec = true ↔ try ∉ sec.
Proof.
  unfold misses. induction sec as [|ch sec IH]; simpl.
  - split; [intros _; apply not_elem_of_nil | done].
  - rewrite andb_true_iff, IH, not_elem_of_cons, negb_true_iff.
    destruct (Ascii.eqb_spec ch try); intuition congruence.
Qed.

Lemma insert_total_id (l : list ascii) (i : nat) (x : ascii) :
  l !!! i = x → <[i := x]> l = l.
Proof.
  intros Hx. destruct (decide (i < length l)%nat) as [Hlt|Hge].
  - apply list_insert_id. rewrite <- Hx. by apply list_lookup_lookup_total_lt.
  - apply list_insert_ge. lia.
Qed.

(** The loop returns whenever the secret fits the buffer, and [error]
    survives exactly when no character of the secret is the guess. *)
Lemma scan_spec (try : ascii) (sec : list ascii) :
  ∀ (i : nat) (obs : list ascii) (error won : bool),
    (i + length sec ≤ MAX_WORD_LENGTH)%nat →
    ∃ obs' won',
      scan try sec i obs error won = Ret (obs', error && misses try sec, won')
      ∧ length obs' = length obs.
Proof.
  induction sec as [|ch sec IH]; intros i obs error won Hfit; simpl in *.
  - exists obs, won. by rewrite andb_true_r.
  - case_decide; [|lia].
    destruct (Ascii.eqb ch try) eqn:Heq; simpl.
    + destruct (IH (S i) (<[i := try]> obs) false
                  (won && negb (Ascii.eqb (<[i := try]> obs !!! i) mask)))
        as (obs' & won' & Hscan & Hlen); [lia|].
      exists obs', won'. rewrite Hscan, Hlen, length_insert.
      by rewrite andb_false_r.
    + destruct (IH (S i) obs error (won && negb (Ascii.eqb (obs !!! i) mask)))
        as (obs' & won' & Hscan & Hlen); [lia|].
      exists obs', won'. by rewrite Hscan, Hlen.
Qed.

(** On a buffer that shows every character of the secret, none of them the
    mask, the loop changes nothing and reports a win. *)
Lemma scan_unmasked (try : ascii) (sec : list ascii) :
  ∀ (i : nat) (obs : list ascii) (error : bool),
    (i + length sec ≤ MAX_WORD_LENGTH)%nat →
    (∀ j, (j < length sec)%nat →
          obs !!! (i + j)%nat = sec !!! j ∧ sec !!! j ≠ mask) →
    scan try sec i obs error true = Ret (obs, error && misses try sec, true).
Proof.
  induction sec as [|ch sec IH]; intros i obs error Hfit Hshow; simpl in *.
  - by rewrite andb_true_r.
  - case_decide; [|lia].
    destruct (Hshow 0%nat) as [Hi Hne]; [lia|]. simpl in Hi, Hne.
    rewrite Nat.add_0_r in Hi.
    assert (Ascii.eqb ch mask = false) as Hm by by apply Ascii.eqb_neq.
    assert (∀ j, (j < length sec)%nat →
                 obs !!! (S i + j)%nat = sec !!! j ∧ sec !!! j ≠ mask) as Hshow'.
    { intros j Hj. destruct (Hshow (S j)) as [H1 H2]; [lia|].
      by rewrite Nat.add_succ_r in H1. }
    destruct (Ascii.eqb_spec ch try) as [->|Hneq]; simpl.
    + rewrite (insert_total_id obs i try Hi), Hi, Hm. simpl.
      rewrite (IH (S i) obs false); [|lia|done].
      by rewrite andb_false_r.
    + rewrite Hi, Hm. simpl. apply IH; [lia|done].
Qed.

Lemma scan_length (try : ascii) (sec : list ascii) :
  ∀ (i : nat) (obs obs' : list ascii) (error won error' won' : bool),
    scan try sec i obs error won = Ret (obs', error', won') →
    length obs' = length obs.
Proof.
  induction sec as [|ch sec IH]; intros i obs obs' error won error' won'; simpl.
  - by intros [= <- _ _].
  - case_decide; [|done]. intros Hrec. apply IH in Hrec.
    destruct (Ascii.eqb ch try); [by rewrite length_insert in Hrec|done].
Qed.

Lemma scan_lookup (try : ascii) (sec : list ascii) :
  ∀ (i : nat) (obs obs' : list ascii) (error won error' won' : bool),
    (i + length sec ≤ length obs)%nat →
    scan try sec i obs error won = Ret (obs', error', won') →
    ∀ k, obs' !!! k
         = if decide (i ≤ k < i + length sec)%nat
           then if Ascii.eqb (sec !!! (k - i)%nat) try then try else obs !!! k
           else obs !!! k.
Proof.
  induction sec as [|ch sec IH];
    intros i obs obs' error won error' won' Hlen Hscan k; simpl in *.
  { injection Hscan as <- _ _. case_decide; [exfalso; lia|done]. }
  case_decide; [|done].
  set (obs1 := if Ascii.eqb ch try then <[i := try]> obs else obs) in *.
  assert (length obs1 = length obs) as Hlen1.
  { unfold obs1. destruct (Ascii.eqb ch try); [apply length_insert|done]. }
  assert (∀ k', k' ≠ i → obs1 !!! k' = obs !!! k') as Hother.
  { intros k' Hne. unfold obs1. destruct (Ascii.eqb ch try); [|done].
    by apply list_lookup_total_insert_ne. }
  assert (S i + length sec ≤ length obs1)%nat as Hlen' by lia.
  rewrite (IH _ _ _ _ _ _ _ Hlen' Hscan k).
  destruct (decide (k = i)) as [->|Hne].
  - rewrite Nat.sub_diag. simpl. repeat case_decide; try lia.
    unfold obs1. destruct (Ascii.eqb ch try); [|done].
    apply list_lookup_total_insert_eq. lia.
  - rewrite Hother by done. repeat case_decide; try lia; [|done].
    replace (k - i)%nat with (S (k - S i)) by lia. done.
Qed.

Lemma scan_won (try : ascii) (sec : list ascii) :
  ∀ (i : nat) (obs obs' : list ascii) (error won error' won' : bool),
    (i + length sec ≤ length obs)%nat →
    scan try sec i obs error won = Ret (obs', error', won') →
    (won' = true
     ↔ won = true ∧ ∀ j, (j < length sec)%nat → obs' !!! (i + j)%nat ≠ mask).
Proof.
  induction sec as [|ch sec IH];
    intros i obs obs' error won error' won' Hlen Hscan; simpl in *.
  { injection Hscan as <- _ <-. split; [|tauto]. split; [done|]. lia. }
  case_decide; [|done].
  set (obs1 := if Ascii.eqb ch try then <[i := try]> obs else obs) in *.
  assert (length obs1 = length obs) as Hlen1.
  { unfold obs1. destruct (Ascii.eqb ch try); [apply length_insert|done]. }
  assert (S i + length sec ≤ length obs1)%nat as Hlen' by lia.
  pose proof (scan_lookup _ _ _ _ _ _ _ _ _ Hlen' Hscan i) as Hi.
  case_decide; [lia|].
  rewrite (IH _ _ _ _ _ _ _ Hlen' Hscan), andb_true_iff, negb_true_iff.
  rewrite <- Hi. split.
  - intros [[Hw Hm] Hrest]. split; [done|]. intros [|j] Hj.
    + rewrite Nat.add_0_r. by apply Ascii.eqb_neq.
    + rewrite Nat.add_succ_r. apply Hrest. lia.
  - intros [Hw Hall]. split; [split; [done|]|].
    + apply Ascii.eqb_neq. specialize (Hall 0%nat). rewrite Nat.add_0_r in Hall.
      apply Hall. lia.
    + intros j Hj. specialize (Hall (S j)). rewrite Nat.add_succ_r in Hall.
      apply Hall. lia.
Qed.

Lemma length_reveal (try : ascii) (sec : list ascii) :
  ∀ obs, length (reveal try sec obs) = length obs.
Proof.
  induction sec as [|ch sec IH]; intros [|o obs]; simpl; [done..|].
  by rewrite IH.
Qed.

Lemma reveal_lookup (try : ascii) (sec : list ascii) :
  ∀ (obs : list ascii) (k : nat),
    (length sec ≤ length obs)%nat →
    reveal try sec obs !!! k
    = if decide (k < length sec)%nat
      then if Ascii.eqb (sec !!! k) try then try else obs !!! k
      else obs !!! k.
Proof.
  induction sec as [|ch sec IH]; intros obs k Hlen.
  - cbn [reveal length]. by case_decide; [lia|].
  - destruct obs as [|o obs]; [simpl in Hlen; lia|].
    destruct k as [|k]; [done|].
    cbn [reveal]. rewrite !lookup_total_cons_ne_0 by lia. simpl pred.
    rewrite IH by (simpl in Hlen; lia).
    cbn [length]. repeat case_decide; (done || lia).
Qed.

Lemma list_eq_total (l1 l2 : list ascii) :
  length l1 = length l2 → (∀ k, l1 !!! k = l2 !!! k) → l1 = l2.
Proof.
  intros Hlen Heq. apply list_eq. intros k.
  destruct (decide (k < length l1)%nat) as [Hlt|Hge].
  - rewrite !list_lookup_lookup_total_lt by lia. by rewrite Heq.
  - rewrite !lookup_ge_None_2 by lia. done.
Qed.

Lemma all_shown_spec (sec obs : list ascii) :
  (length sec ≤ length obs)%nat →
  all_shown sec obs = true
  ↔ ∀ j, (j < length sec)%nat → obs !!! j ≠ mask.
Proof.
  unfold all_shown. generalize (length sec) as n. intros n. revert obs.
  induction n as [|n IH]; intros obs Hlen.
  - rewrite take_0. simpl. split; [intros _ j Hj; lia|done].
  - destruct obs as [|o obs]; [simpl in Hlen; lia|].
    cbn [take forallb]. rewrite andb_true_iff, negb_true_iff, IH
      by (simpl in Hlen; lia).
    split.
    + intros [Ho Hrest] [|j] Hj; [by apply Ascii.eqb_neq|].
      apply Hrest. lia.
    + intros Hall. split.
      * apply Ascii.eqb_neq. apply (Hall 0%nat). lia.
      * intros j Hj. apply (Hall (S j)). lia.
Qed.

(** The loop of [calculate_results] as a whole: the letter is shown where
    the secret has it, [error] stays set when the secret does not have it,
    and [won] stays set when no mask is left. *)
Lemma scan_reveal (try : ascii) (sec obs : list ascii) :
  (length sec ≤ MAX_WORD_LENGTH)%nat →
  (length sec ≤ length obs)%nat →
  scan try sec 0 obs true true
  = Ret (reveal try sec obs, misses try sec,
         all_shown sec (reveal try sec obs)).
Proof.
  intros Hfit Hlen.
  destruct (scan_spec try sec 0 obs true true) as (obs' & won' & Hscan & Hl);
    [by rewrite Nat.add_0_l|].
  assert (0 + length sec ≤ length obs)%nat as Hlen0 by by rewrite Nat.add_0_l.
  assert (obs' = reveal try sec obs) as ->.
  { apply list_eq_total; [by rewrite length_reveal|]. intros k.
    rewrite (scan_lookup _ _ _ _ _ _ _ _ _ Hlen0 Hscan k).
    rewrite reveal_lookup by done. rewrite Nat.sub_0_r.
    repeat case_decide; (done || lia). }
  rewrite Hscan. simpl. repeat f_equal.
  apply eq_true_iff_eq.
  rewrite (scan_won _ _ _ _ _ _ _ _ _ Hlen0 Hscan).
  rewrite all_shown_spec by (by rewrite length_reveal). simpl. tauto.
Qed.

(** C1. For a game with status Open whose error count is within the
    maximum, a guess is answered, and the answer is this. The buffer shows
    the letter wherever the secret has it. The status is Won exactly when
    no position of the word then shows the mask. The error count goes up,
    by exactly one and never otherwise changes, if and only if the letter
    occurs nowhere in the secret and no win is detected. The status becomes
    Lost exactly when the count was incremented and now exceeds
    [MAX_ERROR]; the buffer is then overwritten with the secret, and is the
    revealed buffer otherwise. A game neither won nor lost stays Open. *)
Theorem error_count_and_loss (c : client) (v : list ascii) (try : ascii) :
  secret (current_game c) = Some v →
  (strlen v ≤ MAX_WORD_LENGTH)%nat →
  length (obscured (current_game c)) = MAX_WORD_LENGTH →
  status (current_game c) = game_open →
  0 ≤ errors (current_game c) ≤ MAX_ERROR →
  ∃ c', calculate_results c try = Ret c' ∧
    let g := current_game c in
    let g' := current_game c' in
    let shown := reveal try (c_str v) (obscured g) in
    let won := all_shown (c_str v) shown in
    (status g' = game_won ↔ won = true) ∧
    (errors g' = errors g + 1 ↔ (try ∉ c_str v) ∧ won = false) ∧
    (errors g' = errors g ∨ errors g' = errors g + 1) ∧
    (status g' = game_lost
       ↔ errors g' = errors g + 1 ∧ MAX_ERROR < errors g') ∧
    (status g' = game_lost →
       obscured g' = strncpy shown v MAX_WORD_LENGTH
       ∧ c_str (obscured g') = c_str v) ∧
    (status g' ≠ game_lost → obscured g' = shown) ∧
    (status g' ≠ game_won → status g' ≠ game_lost → status g' = game_open) ∧
    secret g' = Some v.
Proof.
  intros Hsec Hfit Hobs Hopen Herr. unfold strlen in Hfit.
  unfold calculate_results. cbv zeta. rewrite Hsec.
  rewrite scan_reveal by (done || lia). cbn [mbind outcome_bind].
  assert ((errors (current_game c) + 1) `mod` UINT_MODULUS
          = errors (current_game c) + 1) as Hwrap.
  { apply Z.mod_small. unfold UINT_MODULUS, MAX_ERROR in *. lia. }
  rewrite Hwrap.
  assert (c_str (strncpy (reveal try (c_str v) (obscured (current_game c)))
                         v MAX_WORD_LENGTH) = c_str v) as Hcopy.
  { apply c_str_strncpy; [done|]. by rewrite length_reveal. }
  pose proof (misses_spec try (c_str v)) as Hmiss.
  destruct (all_shown _ _) eqn:Hwon.
  { eexists; split; [done|].
    cbn [with_game current_game status errors obscured secret].
    intuition (congruence || lia). }
  destruct (misses try (c_str v)) eqn:Hm; cbn [negb].
  - case_decide.
    + eexists; split; [done|].
      cbn [with_game current_game status errors obscured secret].
      intuition (congruence || lia).
    + eexists; split; [done|].
      cbn [with_game current_game status errors obscured secret].
      rewrite Hopen. intuition (congruence || lia).
  - eexists; split; [done|].
    cbn [with_game current_game status errors obscured secret].
    rewrite Hopen. intuition (congruence || lia).
Qed.

(** C4. In a game whose obscured buffer is a view of the secret and in
    which every position that is not a space is unmasked, a guess with any
    letter is answered with the status Won, the same obscured buffer and
    the same error count. *)
Theorem win_detection_idempotent (c : client) (v : list ascii) (try : ascii) :
  secret (current_game c) = Some v →
  (strlen v ≤ MAX_WORD_LENGTH)%nat →
  masked_view (c_str v) (obscured (current_game c)) →
  unmasked (c_str v) (obscured (current_game c)) →
  ∃ c', calculate_results c try = Ret c'
        ∧ status (current_game c') = game_won
        ∧ obscured (current_game c') = obscured (current_game c)
        ∧ errors (current_game c') = errors (current_game c).
Proof.
  intros Hsec Hfit Hview Hun. unfold calculate_results. rewrite Hsec. simpl.
  rewrite scan_unmasked; [by eexists|done|].
  intros j Hj. simpl.
  destruct (Hview j Hj) as [Hshow|[Hmask Hsp]].
  - split; [done|]. rewrite <- Hshow.
    destruct (Ascii.eqb_spec (c_str v !!! j) space) as [Heq|Hne]; [|by apply Hun].
    rewrite Hshow, Heq. discriminate.
  - by destruct (Hun j Hj Hsp).
Qed.

(** ** Drawing a word *)

Lemma unlink_spec (last : link) (l : list (list ascii)) :
  ∀ pos, (pos < length l)%nat →
    ∃ v, l !! pos = Some v ∧ unlink last pos l = Ret (v, delete pos l).
Proof.
  induction l as [|w l IH]; intros pos Hpos; [simpl in Hpos; lia|].
  destruct pos as [|pos]; [by exists w|].
  destruct (IH pos) as (v & Hv & Hun); [simpl in Hpos; lia|].
  exists v. split; [done|].
  destruct l as [|w' l']; [simpl in Hpos; lia|].
  change (unlink last (S pos) (w :: w' :: l'))
    with ('(x, rest') ← unlink last pos (w' :: l'); Ret (x, w :: rest')).
  by rewrite Hun.
Qed.

Lemma obscure_spec (sec : list ascii) :
  ∀ (i : nat) (obs : list ascii),
    (i + length sec ≤ MAX_WORD_LENGTH)%nat →
    ∃ obs', obscure sec i obs = Ret obs' ∧ length obs' = length obs.
Proof.
  induction sec as [|ch sec IH]; intros i obs Hfit; simpl in *.
  - by exists obs.
  - case_decide; [|lia].
    destruct (IH (S i) (<[i := if Ascii.eqb ch space then space else mask]> obs))
      as (obs' & Hobs & Hlen); [lia|].
    exists obs'. by rewrite Hobs, Hlen, length_insert.
Qed.

(** The draw index lies within the words that remain. *)
Lemma draw_index_lt (r : N) (wordcnt gamecnt : nat) :
  (gamecnt < wordcnt)%nat →
  (draw_index r wordcnt gamecnt < wordcnt - gamecnt)%nat.
Proof.
  intros Hlt. unfold draw_index.
  assert (N.of_nat (wordcnt - gamecnt) ≠ 0%N) as Hne by lia.
  pose proof (N.mod_upper_bound r _ Hne) as Hup.
  pose proof (N.Div0.mod_le (r mod N.of_nat (wordcnt - gamecnt)) (2 ^ 32)%N) as Hle.
  lia.
Qed.

(** A New request to a session that has words left. *)
Lemma new_game_draw (wordcnt : nat) (r : N) (c : client) :
  (gamecnt c < wordcnt)%nat →
  (gamecnt c + length (words c))%nat = wordcnt →
  Forall fits (words c) →
  ∃ v obs,
    words c !! draw_index r wordcnt (gamecnt c) = Some v
    ∧ length obs = MAX_WORD_LENGTH
    ∧ new_game wordcnt r c =
        Ret (mk_client (clientno c)
               (delete (draw_index r wordcnt (gamecnt c)) (words c))
               (words_end c)
               (mk_game (Some v) obs game_open 0) (S (gamecnt c))).
Proof.
  intros Hlt Hinv Hfits. unfold new_game.
  case_decide; [lia|].
  pose proof (draw_index_lt r wordcnt (gamecnt c) Hlt) as Hpos.
  destruct (unlink_spec (words_end c) (words c)
              (draw_index r wordcnt (gamecnt c)))
    as (v & Hv & Hun); [lia|].
  rewrite Hun. cbn [mbind outcome_bind].
  assert (fits v) as Hfit.
  { by eapply (Forall_lookup_1 fits), Hv. }
  unfold fits in Hfit.
  destruct (obscure_spec (c_str v) 0 (replicate MAX_WORD_LENGTH NUL))
    as (obs & Hobs & Hlen); [unfold strlen in Hfit; simpl; lia|].
  rewrite Hobs. cbn [mbind outcome_bind]. case_decide; [|lia].
  eexists v, _. split; [done|]. split; [|done].
  by rewrite length_insert, Hlen, length_replicate.
Qed.

(** A New request to a session that has played every word. *)
Lemma new_game_exhausted (wordcnt : nat) (r : N) (c : client) :
  (wordcnt ≤ gamecnt c)%nat →
  new_game wordcnt r c =
    Ret (with_game c (mk_game (secret (current_game c))
                        (obscured (current_game c)) game_impossible
                        (errors (current_game c)))).
Proof. intros Hge. unfold new_game. by case_decide; [|lia]. Qed.

(** C3. A session that satisfies the counting invariant answers every
    sequence of New requests. The secrets drawn, together with the words
    that remain, are a rearrangement of the words the session started from:
    every draw takes one node out of the list, so no node is drawn twice
    (and no word, when the pool holds each word once). A draw at index
    [rand() % remaining] lies below the number of remaining words, removes
    that node and shortens the list by one. Once [gamecnt] equals
    [wordcnt], every further New request is answered with Impossible and
    neither draws nor removes a word. *)
Theorem no_word_drawn_twice (wordcnt : nat) (rs : list N) (c : client) :
  (gamecnt c + length (words c))%nat = wordcnt →
  Forall fits (words c) →
  ∃ drawn c',
    new_games wordcnt rs c = Ret (drawn, c')
    ∧ drawn ++ words c' ≡ₚ words c
    ∧ (NoDup (words c) → NoDup drawn)
    ∧ (gamecnt c' + length (words c'))%nat = wordcnt
    ∧ (length drawn + length (words c'))%nat = length (words c)
    ∧ (∀ r, (gamecnt c < wordcnt)%nat →
         ∃ v c1, new_game wordcnt r c = Ret c1
           ∧ (draw_index r wordcnt (gamecnt c) < length (words c))%nat
           ∧ words c !! draw_index r wordcnt (gamecnt c) = Some v
           ∧ secret (current_game c1) = Some v
           ∧ words c1 = delete (draw_index r wordcnt (gamecnt c)) (words c)
           ∧ (length (words c1) + 1)%nat = length (words c))
    ∧ (gamecnt c = wordcnt →
         drawn = [] ∧ words c' = words c ∧ gamecnt c' = gamecnt c
         ∧ (rs ≠ [] → status (current_game c') = game_impossible)).
Proof.
  intros Hinv Hfits.
  assert (∀ r, (gamecnt c < wordcnt)%nat →
    ∃ v c1, new_game wordcnt r c = Ret c1
      ∧ (draw_index r wordcnt (gamecnt c) < length (words c))%nat
      ∧ words c !! draw_index r wordcnt (gamecnt c) = Some v
      ∧ secret (current_game c1) = Some v
      ∧ words c1 = delete (draw_index r wordcnt (gamecnt c)) (words c)
      ∧ (length (words c1) + 1)%nat = length (words c)) as Hstep.
  { intros r Hlt.
    destruct (new_game_draw wordcnt r c Hlt Hinv Hfits) as (v & obs & Hv & _ & Hng).
    pose proof (draw_index_lt r wordcnt (gamecnt c) Hlt) as Hidx.
    eexists v, _. split; [exact Hng|]. simpl.
    rewrite length_delete by eauto. repeat split; [lia|done|lia]. }
  revert c Hinv Hfits Hstep.
  induction rs as [|r rs IH]; intros c Hinv Hfits Hstep.
  { exists [], c. simpl. repeat split; try done.
    intros _. apply NoDup_nil_2. }
  cbn [new_games].
  destruct (decide (wordcnt ≤ gamecnt c)%nat) as [Hge|Hlt].
  - rewrite new_game_exhausted by done. cbn [mbind outcome_bind].
    set (c1 := with_game c _).
    destruct (IH c1) as (drawn & c' & Hrun & Hperm & Hnd & Hinv' & Hlen & _ & Hex);
      [done|done| |].
    { intros r' Hlt'. simpl in Hlt'. lia. }
    rewrite Hrun. cbn [mbind outcome_bind].
    exists drawn, c'. split; [done|]. simpl in *.
    destruct Hex as (Hd & Hw & Hg & Hst); [lia|].
    repeat split; try done.
    intros _. destruct rs as [|r' rs'].
    + simpl in Hrun. by injection Hrun as <- <-.
    + by apply Hst.
  - destruct (new_game_draw wordcnt r c) as (v & obs & Hv & _ & Hng);
      [lia|done|done|].
    rewrite Hng. cbn [mbind outcome_bind].
    set (c1 := mk_client _ _ _ _ _).
    assert (length (delete (draw_index r wordcnt (gamecnt c)) (words c))
            = (length (words c) - 1)%nat) as Hdel by (apply length_delete; eauto).
    assert ((length (words c) > 0)%nat) as Hpos by lia.
    destruct (IH c1) as (drawn & c' & Hrun & Hperm & Hnd & Hinv' & Hlen & _ & _).
    { simpl. lia. }
    { simpl. by apply Forall_delete. }
    { intros r' Hlt'.
      assert ((gamecnt c1 + length (words c1))%nat = wordcnt) as Hinv1
        by (simpl; lia).
      assert (Forall fits (words c1)) as Hfits1 by (simpl; by apply Forall_delete).
      destruct (new_game_draw wordcnt r' c1 Hlt' Hinv1 Hfits1)
        as (v' & obs' & Hv' & _ & Hng').
      pose proof (draw_index_lt r' wordcnt (gamecnt c1) Hlt') as Hidx.
      eexists v', _. split; [exact Hng'|]. cbn [words current_game secret].
      rewrite (length_delete (words c1)) by eauto.
      repeat split; [lia|done|lia]. }
    rewrite Hrun. cbn [mbind outcome_bind mret outcome_ret].
    simpl in Hperm, Hlen, Hnd.
    assert ((v :: drawn) ++ words c' ≡ₚ words c) as Hperm'.
    { simpl. rewrite Hperm. symmetry. by apply delete_Permutation. }
    exists (v :: drawn), c'. split; [done|].
    split; [done|]. split.
    { intros Hnodup. rewrite <- Hperm' in Hnodup.
      by apply NoDup_app in Hnodup as (? & _ & _). }
    split; [done|]. split; [simpl; lia|]. split; [done|]. lia.
Qed.

(** ** One pass through the loop *)

Lemma find_client_Some (no : Z) (l pre suf : list client) (cur : client) :
  find_client no l = Some (pre, cur, suf) →
  l = pre ++ cur :: suf ∧ clientno cur = no
  ∧ Forall (λ c, clientno c ≠ no) pre.
Proof.
  revert pre. induction l as [|c l IH]; intros pre; simpl; [done|].
  destruct (Z.eqb_spec (clientno c) no) as [Heq|Hne].
  - intros [= <- <- <-]. by repeat split.
  - destruct (find_client no l) as [[[pre' cur'] suf']|]; simpl; [|done].
    intros [= <- <- <-]. destruct (IH pre' eq_refl) as (-> & Hno & Hpre).
    repeat split; [done|]. by constructor.
Qed.

Lemma resolve_Some (e : env) (sh : shm) (st : server)
    (pre suf : list client) (cur : client) (count : Z) :
  resolve e sh st = Some (pre, cur, suf, count) →
  (shm_clientno sh = -1 ∧ pre = [] ∧ cur = fresh_client e st
   ∧ suf = clients st ∧ count = (client_count st + 1) mod UINT_MODULUS)
  ∨ (shm_clientno sh ≠ -1
     ∧ find_client (shm_clientno sh) (clients st) = Some (pre, cur, suf)
     ∧ count = client_count st).
Proof.
  unfold resolve. destruct (Z.eqb_spec (shm_clientno sh) (-1)) as [Heq|Hne].
  - intros [= <- <- <- <-]. by left.
  - destruct (find_client _ _) as [[[pre' cur'] suf']|]; simpl; [|done].
    intros [= <- <- <- <-]. by right.
Qed.

(** [bail_out] does not come back. *)
Lemma bail_out_stops (code : Z) (sh sh' : shm) (st st' : server)
    (tr tr' : list event) :
  bail_out code sh st tr ≠ Continue st' sh' tr'.
Proof. unfold bail_out. by destruct (free_resources _ _ _) as [[? ?]|]. Qed.

(** A pass that answers a New or guess request and goes on. *)
Lemma dispatch_update (e : env) (sh sh' : shm) (st st' : server)
    (tr : list event) :
  shm_terminate sh = false →
  dispatch e sh st = Continue st' sh' tr →
  ∃ pre cur suf count cur',
    resolve e sh st = Some (pre, cur, suf, count)
    ∧ (if decide (shm_status sh = game_new)
       then new_game (wordcnt st) (rand_value e) cur
       else calculate_results cur (shm_tried_char sh)) = Ret cur'
    ∧ st' = mk_server (srv_words st) (wordcnt st) (pre ++ cur' :: suf) count
    ∧ sh' = mk_shm (errors (current_game cur')) (clientno cur')
                   (status (current_game cur')) (shm_tried_char sh)
                   (strncpy (shm_word sh) (obscured (current_game cur'))
                            MAX_WORD_LENGTH) false
    ∧ tr = [SemPost ret_sem].
Proof.
  intros Hterm. unfold dispatch.
  destruct (resolve e sh st) as [[[[pre cur] suf] count]|];
    [|by intros ?%bail_out_stops].
  rewrite Hterm.
  destruct (if decide (shm_status sh = game_new) then _ else _)
    as [cur'|] eqn:Hupd; [|done].
  destruct (sem_post_ok e); [|by intros ?%bail_out_stops].
  intros [= <- <- <-]. by exists pre, cur, suf, count, cur'.
Qed.

(** A pass that serves a terminate request and goes on. *)
Lemma dispatch_terminate (e : env) (sh sh' : shm) (st st' : server)
    (tr : list event) :
  shm_terminate sh = true →
  dispatch e sh st = Continue st' sh' tr →
  ∃ pre cur suf count,
    resolve e sh st = Some (pre, cur, suf, count)
    ∧ words_end cur = Null
    ∧ st' = mk_server (srv_words st) (wordcnt st) (pre ++ suf) count
    ∧ sh' = set_terminate false sh
    ∧ tr = [SemPost clt_sem].
Proof.
  intros Hterm. unfold dispatch.
  destruct (resolve e sh st) as [[[[pre cur] suf] count]|];
    [|by intros ?%bail_out_stops].
  rewrite Hterm. unfold Wordlist.wordlist_free. cbv beta iota.
  destruct (words_end cur) eqn:Hend; [|done].
  destruct (sem_post_ok e); [|by intros ?%bail_out_stops].
  intros [= <- <- <-]. by exists pre, cur, suf, count.
Qed.

Section Preservation.
Variables (ws : list (list ascii)) (wc : nat) (P : client → Prop).

Hypothesis fresh_new : ∀ e st r c',
  srv_words st = ws →
  new_game wc r (fresh_client e st) = Ret c' → P c'.
Hypothesis kept_new : ∀ c r c', P c → new_game wc r c = Ret c' → P c'.
Hypothesis kept_guess : ∀ c try c',
  P c → calculate_results c try = Ret c' → P c'.

Lemma dispatch_preserves (e : env) (sh sh' : shm) (st st' : server)
    (tr : list event) :
  all_sessions ws wc P st →
  dispatch e sh st = Continue st' sh' tr →
  all_sessions ws wc P st'.
Proof.
  intros (Hws & Hwc & Hall) Hd.
  destruct (shm_terminate sh) eqn:Hterm.
  - apply dispatch_terminate in Hd as (pre & cur & suf & count & Hres & _ & -> & _);
      [|done].
    repeat split; try done. simpl.
    apply resolve_Some in Hres as [(_ & -> & _ & -> & _)|(_ & Hfind & _)];
      [done|].
    apply find_client_Some in Hfind as (Hl & _). rewrite Hl in Hall.
    apply Forall_app in Hall as [Hpre Hsuf].
    apply Forall_cons in Hsuf as [_ Hsuf]. by apply Forall_app.
  - apply dispatch_update in Hd
      as (pre & cur & suf & count & cur' & Hres & Hupd & -> & _); [|done].
    repeat split; try done. simpl.
    apply resolve_Some in Hres as [(_ & -> & -> & -> & _)|(_ & Hfind & _)].
    + simpl. constructor; [|done].
      case_decide; [by eapply fresh_new; [exact Hws|rewrite <- Hwc; exact Hupd]|].
      done.
    + apply find_client_Some in Hfind as (Hl & _). rewrite Hl in Hall.
      apply Forall_app in Hall as [Hpre Hsuf].
      apply Forall_cons in Hsuf as [Hcur Hsuf].
      apply Forall_app. split; [done|]. constructor; [|done].
      case_decide; [rewrite Hwc in Hupd; by eapply kept_new|by eapply kept_guess].
Qed.

Lemma serve_preserves (reqs : list (env * (shm → shm))) :
  ∀ (st st' : server) (sh sh' : shm) (tr : list event),
    all_sessions ws wc P st →
    serve reqs st sh = Continue st' sh' tr →
    all_sessions ws wc P st'.
Proof.
  induction reqs as [|[e w] reqs IH]; intros st st' sh sh' tr Hgood; simpl.
  - by intros [= <- <- <-].
  - destruct (dispatch e (w sh) st) as [st1 sh1 tr1| |] eqn:Hd; [|done|done].
    destruct (serve reqs st1 sh1) as [st2 sh2 tr2| |] eqn:Hs; [|done|done].
    intros [= <- <- <-]. eapply IH; [|exact Hs].
    by eapply dispatch_preserves.
Qed.
End Preservation.

(** ** Invariants of the session table *)

Lemma startup_counts (buf0 f : list ascii) (st : server) :
  startup buf0 f = Ret st →
  wordcnt st = length (srv_words st) ∧ clients st = [] ∧ client_count st = 0.
Proof.
  unfold startup, Wordlist.wordlist_read.
  destruct (Wordlist.read_lines _ _ _ _ _) as [new|]; [|done].
  simpl. intros [= <-]. simpl. by destruct new.
Qed.

Lemma new_game_counted (wc : nat) (r : N) (c c' : client) :
  counted wc c → new_game wc r c = Ret c' → counted wc c'.
Proof.
  unfold counted, new_game. intros Hinv.
  case_decide; [by intros [= <-]|].
  destruct (unlink _ _ _) as [[v rest]|] eqn:Hun; [|done].
  cbn [mbind outcome_bind].
  destruct (obscure _ _ _) as [obs|]; [|done]. cbn [mbind outcome_bind].
  case_decide; [|done]. intros [= <-]. simpl.
  destruct (unlink_spec (words_end c) (words c)
              (draw_index r wc (gamecnt c)))
    as (v' & Hv & Hun'); [pose proof (draw_index_lt r wc (gamecnt c)); lia|].
  rewrite Hun' in Hun. injection Hun as <- <-.
  rewrite length_delete by eauto. lia.
Qed.

Lemma calculate_results_frame (c c' : client) (try : ascii) :
  calculate_results c try = Ret c' →
  clientno c' = clientno c ∧ words c' = words c ∧ gamecnt c' = gamecnt c
  ∧ secret (current_game c') = secret (current_game c).
Proof.
  unfold calculate_results.
  destruct (secret (current_game c)) as [v|]; [|done].
  destruct (scan _ _ _ _ _ _) as [[[obs error] won]|]; [|done].
  cbn [mbind outcome_bind].
  destruct won; [by intros [= <-]|].
  destruct error; simpl; [|by intros [= <-]].
  case_decide; by intros [= <-].
Qed.

(** C10. In every state the server reaches from its start, whatever the
    dictionary and whatever requests it has served, [wordcnt] is the length
    of the master list and every session's [gamecnt] plus the length of its
    remaining word list equals [wordcnt]. *)
Theorem played_plus_remaining (buf0 f : list ascii)
    (reqs : list (env * (shm → shm))) (st0 st : server) (sh0 sh : shm)
    (tr : list event) :
  startup buf0 f = Ret st0 →
  serve reqs st0 sh0 = Continue st sh tr →
  wordcnt st = length (srv_words st)
  ∧ Forall (λ c, (gamecnt c + length (words c))%nat = wordcnt st) (clients st).
Proof.
  intros Hstart Hserve.
  apply startup_counts in Hstart as (Hwc & Hcl & _).
  assert (all_sessions (srv_words st0) (wordcnt st0) (counted (wordcnt st0)) st)
    as (Hws & Hwc' & Hall).
  { eapply serve_preserves; [| | | |exact Hserve].
    - intros e st1 r c' Hws. apply new_game_counted.
      unfold counted, fresh_client, Wordlist.wordlist_copy. simpl.
      by rewrite length_fmap, Hws.
    - intros c r c'. apply new_game_counted.
    - intros c try c' Hc Hcalc. unfold counted in *.
      apply calculate_results_frame in Hcalc as (_ & -> & -> & _). done.
    - repeat split; try done. rewrite Hcl. constructor. }
  rewrite Hwc', Hws. split; [done|exact Hall].
Qed.

Lemma new_game_status (wc : nat) (r : N) (c c' : client) :
  new_game wc r c = Ret c' →
  status (current_game c') = game_impossible
  ∨ (status (current_game c') = game_open ∧ errors (current_game c') = 0).
Proof.
  unfold new_game. case_decide; [intros [= <-]; by left|].
  destruct (unlink _ _ _) as [[v rest]|]; [|done]. cbn [mbind outcome_bind].
  destruct (obscure _ _ _) as [obs|]; [|done]. cbn [mbind outcome_bind].
  case_decide; [|done]. intros [= <-]. by right.
Qed.

(** A guess on an open game within the maximum: the count stays within
    one above the maximum, and is above it exactly when the game is lost. *)
Lemma calculate_results_errors (c c' : client) (try : ascii) :
  calculate_results c try = Ret c' →
  status (current_game c) = game_open →
  0 ≤ errors (current_game c) ≤ MAX_ERROR →
  0 ≤ errors (current_game c') ≤ MAX_ERROR + 1
  ∧ (errors (current_game c') = MAX_ERROR + 1
     ↔ status (current_game c') = game_lost).
Proof.
  unfold calculate_results. intros Hcalc Hopen Herr.
  destruct (secret (current_game c)) as [v|]; [|done].
  destruct (scan _ _ _ _ _ _) as [[[obs error] won]|]; [|done].
  cbn [mbind outcome_bind] in Hcalc.
  assert ((errors (current_game c) + 1) `mod` UINT_MODULUS
          = errors (current_game c) + 1) as Hwrap.
  { apply Z.mod_small. unfold UINT_MODULUS, MAX_ERROR in *. lia. }
  rewrite Hwrap in Hcalc.
  destruct won; [injection Hcalc as <-; simpl; intuition (congruence || lia)|].
  destruct error; simpl in Hcalc;
    [|injection Hcalc as <-; simpl; rewrite Hopen; intuition (congruence || lia)].
  case_decide; injection Hcalc as <-; simpl; [|rewrite Hopen];
    intuition (congruence || lia).
Qed.

Lemma calculate_results_open (c c' : client) (try : ascii) :
  open_within_max c → calculate_results c try = Ret c' → open_within_max c'.
Proof.
  unfold open_within_max, calculate_results. intros Hc Hcalc.
  destruct (secret (current_game c)) as [v|]; [|done].
  destruct (scan _ _ _ _ _ _) as [[[obs error] won]|]; [|done].
  cbn [mbind outcome_bind] in Hcalc.
  destruct won; [by injection Hcalc as <-|].
  destruct error; simpl in Hcalc; [|by injection Hcalc as <-].
  case_decide; injection Hcalc as <-; simpl; [done|].
  intros Hopen. specialize (Hc Hopen).
  rewrite Z.mod_small in *; unfold UINT_MODULUS, MAX_ERROR in *; lia.
Qed.

Lemma serve_open_within_max (ws : list (list ascii)) (wc : nat)
    (reqs : list (env * (shm → shm))) (st st' : server) (sh sh' : shm)
    (tr : list event) :
  all_sessions ws wc open_within_max st →
  serve reqs st sh = Continue st' sh' tr →
  all_sessions ws wc open_within_max st'.
Proof.
  apply serve_preserves.
  - intros e st1 r c' _ Hnew. unfold open_within_max.
    apply new_game_status in Hnew as [Himp|[_ ->]]; [congruence|].
    unfold MAX_ERROR. lia.
  - intros c r c' _ Hnew. unfold open_within_max.
    apply new_game_status in Hnew as [Himp|[_ ->]]; [congruence|].
    unfold MAX_ERROR. lia.
  - intros c try c'. apply calculate_results_open.
Qed.

(** C8, counterexample. The dictionary is the one word CAT; the ninth
    miss leaves the error count 9 in the session and in the mailbox. *)
Lemma nine_misses_exceed_max : ¬ errors_within_max.
Proof.
  intros Hclaim.
  assert (startup (replicate Wordlist.MAXLINELEN NUL) cat_file = Ret cat_server)
    as Hstart by (vm_compute; reflexivity).
  destruct (serve nine_misses cat_server shm_zero) as [st sh tr| |] eqn:Hrun;
    [|vm_compute in Hrun; discriminate..].
  destruct (Hclaim _ _ _ _ _ _ _ Hstart Hrun) as [_ Hsh].
  vm_compute in Hrun. injection Hrun as <- <- <-.
  simpl in Hsh. unfold MAX_ERROR in Hsh. lia.
Qed.

(** C8, amended. In every state the server reaches from its start, a game
    whose status is Open has an error count of at most [MAX_ERROR]. When a
    guess is dispatched for an Open game in such a state, the count
    afterwards, which is the errors field written back into the mailbox, is
    at most [MAX_ERROR + 1], and it is [MAX_ERROR + 1] exactly when the
    status written back is Lost. *)
Theorem errors_bound (buf0 f : list ascii) (reqs : list (env * (shm → shm)))
    (st0 st st' : server) (sh0 sh req sh' : shm) (tr tr' : list event)
    (e : env) (pre suf : list client) (cur : client) :
  startup buf0 f = Ret st0 →
  serve reqs st0 sh0 = Continue st sh tr →
  shm_terminate req = false →
  shm_status req ≠ game_new →
  find_client (shm_clientno req) (clients st) = Some (pre, cur, suf) →
  status (current_game cur) = game_open →
  dispatch e req st = Continue st' sh' tr' →
  Forall open_within_max (clients st)
  ∧ 0 ≤ shm_errors sh' ≤ MAX_ERROR + 1
  ∧ (shm_errors sh' = MAX_ERROR + 1 ↔ shm_status sh' = game_lost)
  ∧ ∃ cur', clients st' = pre ++ cur' :: suf
            ∧ errors (current_game cur') = shm_errors sh'
            ∧ status (current_game cur') = shm_status sh'.
Proof.
  intros Hstart Hserve Hterm Hnew Hfind Hopen Hd.
  apply startup_counts in Hstart as (_ & Hcl & _).
  assert (all_sessions (srv_words st0) (wordcnt st0) open_within_max st)
    as (_ & _ & Hall).
  { eapply serve_open_within_max; [|exact Hserve].
    repeat split; try done. rewrite Hcl. constructor. }
  split; [done|].
  apply dispatch_update in Hd
    as (pre' & cur0 & suf' & count & cur' & Hres & Hupd & -> & -> & _); [|done].
  case_decide; [done|].
  apply resolve_Some in Hres as [(_ & _ & -> & _)|(_ & Hfind' & _)]; [done|].
  rewrite Hfind in Hfind'. injection Hfind' as <- <- <-.
  apply find_client_Some in Hfind as (Hl & _).
  assert (open_within_max cur) as Hcur.
  { rewrite Hl in Hall. apply Forall_app in Hall as [_ Hall].
    by apply Forall_cons in Hall as [? _]. }
  destruct (calculate_results_errors _ _ _ Hupd Hopen (Hcur Hopen)) as [Hb Hl'].
  simpl. repeat split; try tauto; try lia. by exists cur'.
Qed.

(** ** The semaphores *)

Lemma posts_app (s : sem) (tr1 tr2 : list event) :
  posts s (tr1 ++ tr2) = (posts s tr1 + posts s tr2)%nat.
Proof. unfold posts. by rewrite filter_app, length_app. Qed.

Lemma posts_per_client (l : list client) :
  posts clt_sem ((λ _, SemPost clt_sem) <$> l) = length l.
Proof.
  unfold posts. induction l as [|c l IH]; [done|].
  rewrite fmap_cons, filter_cons_True by done. simpl. by rewrite IH.
Qed.

(** The loop over the clients comes to its end exactly when every word
    list ends in null, and has then posted the gate once per client. *)
Lemma free_clients_null (l : list client) :
  Forall (λ c, words_end c = Null) l →
  free_clients l = Ret ((λ _, SemPost clt_sem) <$> l).
Proof.
  induction 1 as [|c l Hc _ IH]; [done|].
  cbn [free_clients]. unfold Wordlist.wordlist_free. rewrite Hc.
  cbn [mbind outcome_bind]. by rewrite IH.
Qed.

Lemma free_clients_wild (l : list client) :
  Exists (λ c, words_end c = Wild) l → free_clients l = Fault Uninitialised.
Proof.
  induction l as [|c l IH]; intros Hex; [by apply Exists_nil in Hex|].
  cbn [free_clients]. unfold Wordlist.wordlist_free.
  destruct (words_end c) eqn:Hc; [|done]. cbn [mbind outcome_bind].
  apply Exists_cons in Hex as [Hex|Hex]; [congruence|]. by rewrite IH.
Qed.

Lemma free_clients_Ret (l : list client) (tr : list event) :
  free_clients l = Ret tr →
  Forall (λ c, words_end c = Null) l ∧ tr = (λ _, SemPost clt_sem) <$> l.
Proof.
  intros Hfree.
  assert (Forall (λ c, words_end c = Null) l) as Hall.
  { apply Forall_forall. intros c Hc.
    destruct (words_end c) eqn:Hend; [done|].
    rewrite free_clients_wild in Hfree; [done|].
    apply Exists_exists. by exists c. }
  split; [done|]. rewrite free_clients_null in Hfree by done. congruence.
Qed.

(** What the shutdown path does when it comes to its end. *)
Lemma free_resources_null (sh : shm) (st : server) :
  Forall (λ c, words_end c = Null) (clients st) →
  free_resources (Some sh) true st
  = Ret (Some (set_terminate true sh),
         (((λ _, SemPost clt_sem) <$> clients st) ++ [Munmap; ShmUnlink])
         ++ [SemClose srv_sem; SemClose clt_sem; SemClose ret_sem;
             SemUnlink srv_sem; SemUnlink clt_sem; SemUnlink ret_sem]).
Proof.
  intros Hall. unfold free_resources. by rewrite free_clients_null.
Qed.


Lemma free_resources_Ret (sh : shm) (st : server) (shared' : option shm)
    (tr : list event) :
  free_resources (Some sh) true st = Ret (shared', tr) →
  Forall (λ c, words_end c = Null) (clients st).
Proof.
  unfold free_resources.
  destruct (free_clients (clients st)) as [tr0|] eqn:Hfree; [|done].
  intros _. by apply free_clients_Ret in Hfree as [? _].
Qed.

(** The shutdown path posts the gate once per session in the list. *)
Lemma free_resources_posts (sh : shm) (st : server) (shared' : option shm)
    (tr : list event) :
  free_resources (Some sh) true st = Ret (shared', tr) →
  posts clt_sem tr = length (clients st).
Proof.
  intros Hfree. pose proof (free_resources_Ret _ _ _ _ Hfree) as Hall.
  rewrite free_resources_null in Hfree by done. injection Hfree as _ <-.
  rewrite !posts_app, posts_per_client. unfold posts. simpl. lia.
Qed.





(** ** The client *)

(** C9. A client that has the gate and finds the terminate flag set ends
    with the failure status; the mailbox is as it found it, and its calls
    are [munmap] and three [sem_close], with no post of request-pending. *)
Theorem client_leaves_on_terminate (post_ok wait_ok : bool)
    (cs : Client.state) (sh : shm) :
  shm_terminate sh = true →
  Client.send post_ok wait_ok cs sh
    = Client.Exit EXIT_FAILURE sh (Munmap :: Client.closes)
  ∧ EXIT_FAILURE ≠ EXIT_SUCCESS
  ∧ posts srv_sem (Munmap :: Client.closes) = 0%nat.
Proof.
  intros Hterm. unfold Client.send. rewrite Hterm. by repeat split.
Qed.

(** ** The scenario with the one word CAT *)

Lemma draw_index_single (r : N) : draw_index r 1 0 = 0%nat.
Proof. unfold draw_index. simpl. by rewrite N.mod_1_r. Qed.

(** With one word left the value of [rand] does not matter. *)
Lemma new_game_single (r : N) (c : client) :
  gamecnt c = 0%nat → new_game 1 r c = new_game 1 0 c.
Proof.
  intros Hcnt. unfold new_game. rewrite Hcnt.
  by rewrite !draw_index_single.
Qed.

Lemma dispatch_single (r : N) (junk : game) (fresh : link) (sh : shm) :
  dispatch (mk_env r true junk fresh) sh cat_server
  = dispatch (mk_env 0 true junk fresh) sh cat_server.
Proof.
  unfold dispatch, resolve, cat_server. simpl.
  destruct (shm_clientno sh =? -1); simpl; [|done].
  destruct (shm_terminate sh); [done|].
  case_decide; [|done].
  by rewrite (new_game_single r).
Qed.

(** C2. With the word pool [CAT] and [MAX_ERROR] 8, whatever [rand]
    returns and whatever the fresh blocks hold, the requests New, C, Z, A,
    T, New of a new client are answered with Open and three masks and no
    error, then C and two masks, the same with one error, CA and one mask,
    Won with CAT, and Impossible. *)
Theorem cat_scenario (rs : list N) (junk : game) (fresh : link) :
  MAX_ERROR = 8
  ∧ play rs junk fresh
      [Client.NewGame; Client.Guess "C"; Client.Guess "Z"; Client.Guess "A";
       Client.Guess "T"; Client.NewGame]
      Client.initial cat_server shm_zero
    = Some [(game_open, of_string "___", 0);
            (game_open, of_string "C__", 0);
            (game_open, of_string "C__", 1);
            (game_open, of_string "CA_", 1);
            (game_won, of_string "CAT", 1);
            (game_impossible, of_string "CAT", 1)].
Proof.
  split; [done|].
  cbn -[dispatch]. rewrite dispatch_single.
  vm_compute. reflexivity.
Qed.

(** ** The word list *)

(** C7, the failing input. For the lines [ab] and [c] the interface
    asks for the words AB and C; [wordlist_read] stores AB and then the
    second line as it was read, in lower case, because [ptr] still points
    behind the first word when the second line is filtered. *)
Theorem second_line_unfiltered :
  Wordlist.wordlist_read (replicate Wordlist.MAXLINELEN NUL) two_lines []
    = Ret ([of_string "AB"; of_string "c"], 2%nat)
  ∧ load_words_spec two_lines = ([of_string "AB"; of_string "C"], 2%nat).
Proof. split; vm_compute; reflexivity. Qed.

(** The same with any contents of the stack where [buf] is placed. *)
Lemma raw_line_on_any_stack (buf0 : list ascii) :
  length buf0 = Wordlist.MAXLINELEN →
  Wordlist.wordlist_read buf0 two_lines []
    = Ret ([of_string "AB"; of_string "c"], 2%nat).
Proof.
  intros Hlen.
  do 5 (destruct buf0 as [|? buf0]; [simpl in Hlen; discriminate|]).
  vm_compute. reflexivity.
Qed.

(** A second line as long as the first word makes the loop write over the
    terminator it is looking for, and it runs off the buffer. *)
Lemma second_line_overruns :
  Wordlist.wordlist_read (replicate Wordlist.MAXLINELEN NUL)
    (of_string "ab
cd
") [] = Fault OutOfBounds.
Proof. vm_compute. reflexivity. Qed.

(** A first line is filtered as the interface asks. *)
Lemma first_line_filtered :
  Wordlist.wordlist_read (replicate Wordlist.MAXLINELEN NUL)
    (of_string "c-a t!
") [] = Ret ([of_string "CA T"], 1%nat)
  ∧ load_words_spec (of_string "c-a t!
") = ([of_string "CA T"], 1%nat).
Proof. split; vm_compute; reflexivity. Qed.

(** ** Open games of reachable sessions *)

Lemma obscure_length (sec : list ascii) :
  ∀ (i : nat) (obs obs' : list ascii),
    obscure sec i obs = Ret obs' → length obs' = length obs.
Proof.
  induction sec as [|ch sec IH]; intros i obs obs'; simpl.
  - by intros [= <-].
  - case_decide; [|done]. intros Hrec. apply IH in Hrec.
    by rewrite length_insert in Hrec.
Qed.

Lemma new_game_open (wc : nat) (r : N) (c c' : client) :
  new_game wc r c = Ret c' → open_well_formed c'.
Proof.
  unfold new_game, open_well_formed. case_decide; [by intros [= <-]|].
  destruct (unlink _ _ _) as [[v rest]|]; [|done]. cbn [mbind outcome_bind].
  destruct (obscure _ _ _) as [obs|] eqn:Hobs; [|done].
  cbn [mbind outcome_bind].
  case_decide; [|done]. intros [= <-] _. simpl.
  apply obscure_length in Hobs. rewrite length_replicate in Hobs.
  exists v. rewrite length_insert. unfold fits, MAX_ERROR.
  repeat split; [done..|lia|lia].
Qed.

Lemma calculate_results_well_formed (c c' : client) (try : ascii) :
  open_well_formed c → calculate_results c try = Ret c' → open_well_formed c'.
Proof.
  intros Hwf Hcalc Hopen'.
  pose proof (calculate_results_frame _ _ _ Hcalc) as (_ & _ & _ & Hsec).
  assert (status (current_game c) = game_open
          ∧ length (obscured (current_game c'))
            = length (obscured (current_game c))) as [Hopen Hlen].
  { unfold calculate_results in Hcalc.
    destruct (secret (current_game c)) as [v|]; [|done].
    destruct (scan _ _ _ _ _ _) as [[[obs error] won]|] eqn:Hscan; [|done].
    apply scan_length in Hscan. cbn [mbind outcome_bind] in Hcalc.
    destruct won; [injection Hcalc as <-; simpl in *; congruence|].
    destruct error; simpl in Hcalc; [|by injection Hcalc as <-].
    case_decide; injection Hcalc as <-; simpl in *; [congruence|done]. }
  destruct (Hwf Hopen) as (v & Hv & Hfit & Hobs & Herr).
  exists v. rewrite Hsec, Hlen. repeat split; try done;
    apply (calculate_results_open c c' try); try done; by intros _.
Qed.

(** Every open game of a session the server can reach has a secret that
    fits, a buffer of [MAX_WORD_LENGTH] characters and an error count within
    the maximum. *)
Lemma open_games_well_formed (buf0 f : list ascii)
    (reqs : list (env * (shm → shm))) (st0 st : server) (sh0 sh : shm)
    (tr : list event) :
  startup buf0 f = Ret st0 →
  serve reqs st0 sh0 = Continue st sh tr →
  Forall open_well_formed (clients st).
Proof.
  intros Hstart Hserve.
  apply startup_counts in Hstart as (_ & Hcl & _).
  assert (all_sessions (srv_words st0) (wordcnt st0) open_well_formed st)
    as (_ & _ & Hall); [|done].
  eapply serve_preserves; [| | | |exact Hserve].
  - intros e st1 r c' _. apply new_game_open.
  - intros c r c' _. apply new_game_open.
  - intros c try c'. apply calculate_results_well_formed.
  - repeat split; try done. rewrite Hcl. constructor.
Qed.

(** ** Fuel *)

Lemma filter_line_fuel (fuel : nat) :
  ∀ (buf : list ascii) (s ptr : nat),
    (Wordlist.MAXLINELEN < fuel + s)%nat →
    Wordlist.filter_line (S fuel) buf s ptr = Wordlist.filter_line fuel buf s ptr.
Proof.
  induction fuel as [|fuel IH]; intros buf s ptr Hfuel.
  - simpl. by case_decide; [lia|].
  - change (Wordlist.filter_line (S (S fuel)) buf s ptr) with
      (if decide (s < Wordlist.MAXLINELEN)%nat then
         let ch := buf !!! s in
         if Ascii.eqb ch NUL then Ret (buf, ptr)
         else if isalpha ch || Ascii.eqb ch space then
           if decide (ptr < Wordlist.MAXLINELEN)%nat then
             Wordlist.filter_line (S fuel) (<[ptr := toupper ch]> buf) (S s) (S ptr)
           else Fault OutOfBounds
         else Wordlist.filter_line (S fuel) buf (S s) ptr
       else Fault OutOfBounds).
    change (Wordlist.filter_line (S fuel) buf s ptr) with
      (if decide (s < Wordlist.MAXLINELEN)%nat then
         let ch := buf !!! s in
         if Ascii.eqb ch NUL then Ret (buf, ptr)
         else if isalpha ch || Ascii.eqb ch space then
           if decide (ptr < Wordlist.MAXLINELEN)%nat then
             Wordlist.filter_line fuel (<[ptr := toupper ch]> buf) (S s) (S ptr)
           else Fault OutOfBounds
         else Wordlist.filter_line fuel buf (S s) ptr
       else Fault OutOfBounds).
    cbv zeta. rewrite !IH by lia. done.
Qed.

Lemma fgets_take_le (room : nat) :
  ∀ f : list ascii, (length (Wordlist.fgets_take room f).2 ≤ length f)%nat.
Proof.
  induction room as [|room IH]; intros [|ch f]; simpl; try lia.
  destruct (Ascii.eqb ch newline); simpl; [lia|].
  specialize (IH f). destruct (Wordlist.fgets_take room f). simpl in *. lia.
Qed.

Lemma fgets_shorter (buf buf1 f f' : list ascii) (size : nat) :
  Wordlist.fgets buf (S (S size)) f = Some (buf1, f') →
  (length f' < length f)%nat.
Proof.
  unfold Wordlist.fgets. destruct f as [|ch f]; [done|].
  simpl. destruct (Ascii.eqb ch newline).
  - intros [= _ <-]. simpl. lia.
  - pose proof (fgets_take_le size f) as Hle.
    destruct (Wordlist.fgets_take size f). intros [= _ <-]. simpl in *. lia.
Qed.

Lemma read_lines_unfold (fuel : nat) (f buf : list ascii) (ptr : nat)
    (acc : list (list ascii)) :
  Wordlist.read_lines (S fuel) f buf ptr acc =
    match Wordlist.fgets buf Wordlist.MAXLINELEN f with
    | None => Ret acc
    | Some (buf1, f') =>
        let buf2 := <[strcspn buf1 [newline] := NUL]> buf1 in
        if Ascii.eqb (buf2 !!! 0%nat) NUL
        then Wordlist.read_lines fuel f' buf2 ptr acc
        else
          '(buf3, ptr') ← Wordlist.filter_line (S Wordlist.MAXLINELEN) buf2 0 ptr;
          if decide (ptr' < Wordlist.MAXLINELEN)%nat then
            let buf4 := <[ptr' := NUL]> buf3 in
            Wordlist.read_lines fuel f' buf4 ptr' (acc ++ [c_str buf4])
          else Fault OutOfBounds
    end.
Proof. reflexivity. Qed.

(** The loops of [wordlist_read] end before their fuel does: more fuel
    changes nothing. *)
Lemma read_lines_fuel (fuel : nat) :
  ∀ (f buf : list ascii) (ptr : nat) (acc : list (list ascii)),
    (length f < fuel)%nat →
    Wordlist.read_lines (S fuel) f buf ptr acc
    = Wordlist.read_lines fuel f buf ptr acc.
Proof.
  induction fuel as [|fuel IH]; intros f buf ptr acc Hfuel; [lia|].
  rewrite (read_lines_unfold (S fuel)), (read_lines_unfold fuel).
  destruct (Wordlist.fgets buf Wordlist.MAXLINELEN f) as [[buf1 f']|] eqn:Hget;
    [|done].
  apply fgets_shorter in Hget. cbv zeta.
  destruct (Ascii.eqb _ NUL); [apply IH; lia|].
  destruct (Wordlist.filter_line _ _ _ _) as [[buf3 ptr']|]; [|done].
  cbn [mbind outcome_bind]. case_decide; [apply IH; lia|done].
Qed.

(** ** The obscured buffer as a view of the secret *)

Lemma obscure_eq (sec : list ascii) :
  ∀ (i : nat) (obs obs' : list ascii),
    (i + length sec ≤ length obs)%nat →
    obscure sec i obs = Ret obs' →
    obs' = take i obs
           ++ ((λ ch, if Ascii.eqb ch space then space else mask) <$> sec)
           ++ drop (i + length sec) obs.
Proof.
  induction sec as [|ch sec IH]; intros i obs obs' Hlen; simpl in *.
  - intros [= <-]. by rewrite Nat.add_0_r, take_drop.
  - case_decide; [|done]. intros Hrec.
    apply IH in Hrec; [|rewrite length_insert; lia].
    rewrite Hrec.
    rewrite (take_S_r _ _ (if Ascii.eqb ch space then space else mask))
      by (apply list_lookup_insert_eq; lia).
    rewrite take_insert_ge by lia. rewrite drop_insert_lt by lia.
    rewrite <- app_assoc. simpl. by rewrite Nat.add_succ_r.
Qed.

Lemma scan_fits (try : ascii) (sec : list ascii) :
  ∀ (i : nat) (obs : list ascii) (error won : bool)
    (r : list ascii * bool * bool),
    (i ≤ MAX_WORD_LENGTH)%nat →
    scan try sec i obs error won = Ret r →
    (i + length sec ≤ MAX_WORD_LENGTH)%nat.
Proof.
  induction sec as [|ch sec IH]; intros i obs error won r Hi; simpl; [lia|].
  case_decide; [|done]. intros Hrec. apply IH in Hrec; lia.
Qed.

Lemma new_game_view (wc : nat) (r : N) (c c' : client) :
  views_secret c → new_game wc r c = Ret c' → views_secret c'.
Proof.
  unfold new_game, views_secret. intros Hview.
  case_decide; [by intros [= <-]|].
  destruct (unlink _ _ _) as [[v rest]|]; [|done]. cbn [mbind outcome_bind].
  destruct (obscure _ _ _) as [obs|] eqn:Hobs; [|done].
  cbn [mbind outcome_bind].
  case_decide as Hfit; [|done]. intros [= <-] v' [= <-].
  cbn [current_game obscured]. unfold strlen in *.
  pose proof (obscure_length _ _ _ _ Hobs) as Hlen.
  rewrite length_replicate in Hlen.
  apply obscure_eq in Hobs; [|rewrite length_replicate; lia].
  split; [by rewrite length_insert|].
  intros j Hj. rewrite list_lookup_total_insert_ne by lia.
  rewrite Hobs. simpl. rewrite lookup_total_app_l by (rewrite length_fmap; lia).
  rewrite (list_lookup_total_fmap
             (λ ch, if Ascii.eqb ch space then space else mask) (c_str v) j)
    by done.
  destruct (Ascii.eqb_spec (c_str v !!! j) space) as [Heq|Hne]; [by left|by right].
Qed.

Lemma calculate_results_view (c c' : client) (try : ascii) :
  views_secret c → calculate_results c try = Ret c' → views_secret c'.
Proof.
  unfold calculate_results, views_secret. intros Hview.
  destruct (secret (current_game c)) as [v|]; [|done].
  destruct (Hview v eq_refl) as [Hlen Hv].
  destruct (scan _ _ _ _ _ _) as [[[obs error] won]|] eqn:Hscan; [|done].
  pose proof (scan_length _ _ _ _ _ _ _ _ _ Hscan) as Hlen'.
  assert (0 + length (c_str v) ≤ MAX_WORD_LENGTH)%nat as Hfit.
  { eapply scan_fits; [|exact Hscan]. lia. }
  assert (0 + length (c_str v) ≤ length (obscured (current_game c)))%nat
    as Hfit' by lia.
  pose proof (scan_lookup _ _ _ _ _ _ _ _ _ Hfit' Hscan) as Hobs.
  assert (masked_view (c_str v) obs) as Hv'.
  { intros j Hj. rewrite Hobs. case_decide; [|lia]. rewrite Nat.sub_0_r.
    destruct (Ascii.eqb_spec (c_str v !!! j) try); [by left|by apply Hv]. }
  cbn [mbind outcome_bind].
  destruct won; [intros [= <-] v' [= <-]; simpl; by rewrite Hlen'|].
  destruct error; simpl; [|intros [= <-] v' [= <-]; simpl; by rewrite Hlen'].
  case_decide; intros [= <-] v' [= <-]; simpl; [|by rewrite Hlen'].
  split; [apply length_strncpy; lia|].
  intros j Hj. left. unfold strncpy.
  rewrite take_ge by (simpl in Hfit; lia).
  by rewrite lookup_total_app_l.
Qed.

(** In every session the server can reach, the obscured buffer of a game
    with a secret is a view of that secret. *)
Lemma sessions_view_secret (buf0 f : list ascii)
    (reqs : list (env * (shm → shm))) (st0 st : server) (sh0 sh : shm)
    (tr : list event) :
  startup buf0 f = Ret st0 →
  serve reqs st0 sh0 = Continue st sh tr →
  Forall views_secret (clients st).
Proof.
  intros Hstart Hserve.
  apply startup_counts in Hstart as (_ & Hcl & _).
  assert (all_sessions (srv_words st0) (wordcnt st0) views_secret st)
    as (_ & _ & Hall); [|done].
  eapply serve_preserves; [| | | |exact Hserve].
  - intros e st1 r c' _. apply new_game_view. by intros v.
  - intros c r c'. apply new_game_view.
  - intros c try c'. apply calculate_results_view.
  - repeat split; try done. rewrite Hcl. constructor.
Qed.

(** ** The statements at concrete inputs *)

Lemma error_count_and_loss_witness :
  ∃ c', calculate_results (cat_client (of_string "C__") 8) "Z" = Ret c'
    ∧ status (current_game c') = game_lost
    ∧ errors (current_game c') = 9
    ∧ c_str (obscured (current_game c')) = of_string "CAT".
Proof.
  destruct (error_count_and_loss (cat_client (of_string "C__") 8)
              (of_string "CAT") "Z")
    as (c' & Hres & _ & Hcount & _ & Hlost & Hsecret & _).
  - reflexivity.
  - vm_compute. lia.
  - reflexivity.
  - reflexivity.
  - vm_compute. split; discriminate.
  - assert (errors (current_game c') = 9) as Herr.
    { apply Hcount. split; [|reflexivity].
      simpl. rewrite !elem_of_cons, elem_of_nil. intuition discriminate. }
    assert (status (current_game c') = game_lost) as Hst.
    { apply Hlost. split; [exact Herr|]. rewrite Herr. reflexivity. }
    exists c'. split; [exact Hres|]. split; [exact Hst|].
    split; [exact Herr|]. apply Hsecret, Hst.
Defined.

Lemma win_detection_idempotent_witness :
  ∃ c', calculate_results (cat_client (of_string "CAT") 1) "Q" = Ret c'
        ∧ status (current_game c') = game_won
        ∧ obscured (current_game c') = of_string "CAT" ++ replicate 77 NUL
        ∧ errors (current_game c') = 1.
Proof.
  apply (win_detection_idempotent (cat_client (of_string "CAT") 1)
           (of_string "CAT") "Q").
  - reflexivity.
  - vm_compute. lia.
  - intros j Hj. vm_compute in Hj.
    destruct j as [|[|[|j]]]; [left; reflexivity..|lia].
  - intros j Hj _. vm_compute in Hj.
    destruct j as [|[|[|j]]]; [discriminate..|lia].
Defined.

Lemma no_word_drawn_twice_witness :
  ∃ drawn c',
    new_games 2 [5%N; 7%N; 1%N]
      (mk_client 0 [of_string "CAT"; of_string "DOG"] Null
                 (mk_game None [] game_new 0) 0) = Ret (drawn, c')
    ∧ drawn = [of_string "DOG"; of_string "CAT"]
    ∧ words c' = []
    ∧ status (current_game c') = game_impossible.
Proof.
  destruct (no_word_drawn_twice 2 [5%N; 7%N; 1%N]
              (mk_client 0 [of_string "CAT"; of_string "DOG"] Null
                         (mk_game None [] game_new 0) 0))
    as (drawn & c' & Hrun & _).
  - reflexivity.
  - repeat constructor; vm_compute; lia.
  - exists drawn, c'. split; [exact Hrun|].
    vm_compute in Hrun. injection Hrun as <- <-. repeat split.
Defined.



Lemma client_leaves_on_terminate_witness :
  Client.send true true Client.initial (set_terminate true shm_zero)
    = Client.Exit EXIT_FAILURE (set_terminate true shm_zero)
                  (Munmap :: Client.closes)
  ∧ EXIT_FAILURE ≠ EXIT_SUCCESS
  ∧ posts srv_sem (Munmap :: Client.closes) = 0%nat.
Proof.
  apply (client_leaves_on_terminate true true Client.initial
           (set_terminate true shm_zero)).
  reflexivity.
Defined.

Lemma played_plus_remaining_witness :
  ∃ st sh tr,
    serve nine_misses cat_server shm_zero = Continue st sh tr
    ∧ wordcnt st = length (srv_words st)
    ∧ Forall (λ c, (gamecnt c + length (words c))%nat = wordcnt st) (clients st).
Proof.
  eexists _, _, _. split; [vm_compute; reflexivity|].
  eapply (played_plus_remaining (replicate Wordlist.MAXLINELEN NUL) cat_file
            nine_misses cat_server _ shm_zero).
  - vm_compute. reflexivity.
  - vm_compute. reflexivity.
Defined.

Lemma errors_bound_witness :
  ∃ st sh tr st' sh' tr',
    serve eight_misses cat_server shm_zero = Continue st sh tr
    ∧ dispatch quiet_env (guess_request 0 "Q" sh) st = Continue st' sh' tr'
    ∧ Forall open_within_max (clients st)
    ∧ 0 ≤ shm_errors sh' ≤ MAX_ERROR + 1
    ∧ (shm_errors sh' = MAX_ERROR + 1 ↔ shm_status sh' = game_lost)
    ∧ shm_errors sh' = 9.
Proof.
  eexists _, _, _, _, _, _.
  split; [vm_compute; reflexivity|]. split; [vm_compute; reflexivity|].
  destruct (errors_bound (replicate Wordlist.MAXLINELEN NUL) cat_file
              eight_misses cat_server
              (mk_server [of_string "CAT"] 1
                 [cat_client (of_string "___") 8] 1)
              (mk_server [of_string "CAT"] 1
                 [mk_client 0 [] Null
                    (mk_game (Some (of_string "CAT"))
                       (of_string "CAT" ++ replicate 77 NUL) game_lost 9) 1] 1)
              shm_zero
              (mk_shm 8 0 game_open "R" (of_string "___" ++ replicate 77 NUL) false)
              (guess_request 0 "Q"
                 (mk_shm 8 0 game_open "R" (of_string "___" ++ replicate 77 NUL)
                         false))
              (mk_shm 9 0 game_lost "Q" (of_string "CAT" ++ replicate 77 NUL) false)
              (replicate 9 (SemPost ret_sem)) [SemPost ret_sem]
              quiet_env [] [] (cat_client (of_string "___") 8))
    as (Hall & Hb & Hiff & _).
  - vm_compute. reflexivity.
  - vm_compute. reflexivity.
  - reflexivity.
  - vm_compute. discriminate.
  - vm_compute. reflexivity.
  - reflexivity.
  - vm_compute. reflexivity.
  - split; [exact Hall|]. split; [exact Hb|]. split; [exact Hiff|].
    reflexivity.
Defined.

(** * Further properties of the code *)

(** ** What a new game shows *)

Lemma c_str_strncpy_lt (dst src : list ascii) (n : nat) :
  (strlen src < n)%nat → c_str (strncpy dst src n) = c_str src.
Proof.
  unfold strncpy, strlen. intros Hlen. rewrite take_ge by lia.
  destruct (n - length (c_str src))%nat as [|k] eqn:Hk; [lia|]. simpl.
  apply c_str_app_NUL, c_str_no_NUL.
Qed.

Lemma masks_no_NUL (sec : list ascii) :
  NUL ∉ (λ ch, if Ascii.eqb ch space then space else mask) <$> sec.
Proof.
  induction sec as [|ch sec IH]; simpl; [apply not_elem_of_nil|].
  apply not_elem_of_cons. split; [|done].
  by destruct (Ascii.eqb ch space).
Qed.

Lemma obscure_fault (sec : list ascii) :
  ∀ (i : nat) (obs : list ascii) (f : fault),
    obscure sec i obs = Fault f → f = OutOfBounds.
Proof.
  induction sec as [|ch sec IH]; intros i obs f; simpl; [done|].
  case_decide; [apply IH|by intros [= <-]].
Qed.

(** A New request to a session that has words left, when the word at the
    draw index leaves room in the buffer. *)
Lemma new_game_at (wordcnt : nat) (r : N) (c : client) (v : list ascii) :
  (gamecnt c < wordcnt)%nat →
  (gamecnt c + length (words c))%nat = wordcnt →
  words c !! draw_index r wordcnt (gamecnt c) = Some v →
  fits v →
  ∃ c',
    new_game wordcnt r c = Ret c'
    ∧ secret (current_game c') = Some v
    ∧ status (current_game c') = game_open
    ∧ errors (current_game c') = 0
    ∧ c_str (obscured (current_game c'))
      = (λ ch, if Ascii.eqb ch space then space else mask) <$> c_str v
    ∧ length (obscured (current_game c')) = MAX_WORD_LENGTH
    ∧ words c' = delete (draw_index r wordcnt (gamecnt c)) (words c)
    ∧ words_end c' = words_end c
    ∧ gamecnt c' = S (gamecnt c)
    ∧ clientno c' = clientno c.
Proof.
  intros Hlt Hinv Hv Hfit. unfold new_game. case_decide; [lia|].
  pose proof (draw_index_lt r wordcnt (gamecnt c) Hlt) as Hpos.
  destruct (unlink_spec (words_end c) (words c)
              (draw_index r wordcnt (gamecnt c)))
    as (v' & Hv' & Hun); [lia|].
  rewrite Hv in Hv'. injection Hv' as <-.
  rewrite Hun. cbn [mbind outcome_bind].
  unfold fits, strlen in Hfit.
  destruct (obscure_spec (c_str v) 0 (replicate MAX_WORD_LENGTH NUL))
    as (obs & Hobs & Hlen); [simpl; lia|].
  rewrite Hobs. cbn [mbind outcome_bind]. unfold strlen.
  case_decide; [|lia].
  rewrite length_replicate in Hlen.
  apply obscure_eq in Hobs; [|rewrite length_replicate; lia].
  rewrite drop_replicate, take_0 in Hobs. cbn [Nat.add app] in Hobs.
  destruct (MAX_WORD_LENGTH - length (c_str v))%nat as [|k] eqn:Hk; [lia|].
  cbn [replicate] in Hobs.
  eexists. split; [done|]. simpl.
  repeat split; try done; [|by rewrite length_insert].
  rewrite Hobs. rewrite insert_app_r_alt by (rewrite length_fmap; lia).
  rewrite length_fmap.
  replace (length (c_str v) + 1 - length (c_str v))%nat with 1%nat by lia.
  simpl. apply c_str_app_NUL, masks_no_NUL.
Qed.

(** With a longer word at the draw index [new_game] writes outside
    [obscured]. *)
Lemma new_game_overflow (wordcnt : nat) (r : N) (c : client) (v : list ascii) :
  (gamecnt c < wordcnt)%nat →
  (gamecnt c + length (words c))%nat = wordcnt →
  words c !! draw_index r wordcnt (gamecnt c) = Some v →
  ¬ fits v →
  new_game wordcnt r c = Fault OutOfBounds.
Proof.
  intros Hlt Hinv Hv Hfit. unfold new_game. case_decide; [lia|].
  pose proof (draw_index_lt r wordcnt (gamecnt c) Hlt) as Hpos.
  destruct (unlink_spec (words_end c) (words c)
              (draw_index r wordcnt (gamecnt c)))
    as (v' & Hv' & Hun); [lia|].
  rewrite Hv in Hv'. injection Hv' as <-.
  rewrite Hun. cbn [mbind outcome_bind].
  destruct (obscure _ _ _) as [obs|f] eqn:Hobs; cbn [mbind outcome_bind].
  - by case_decide.
  - by apply obscure_fault in Hobs as ->.
Qed.

(** The same when every word of the session leaves room. *)
Lemma new_game_opens (wordcnt : nat) (r : N) (c : client) :
  (gamecnt c < wordcnt)%nat →
  (gamecnt c + length (words c))%nat = wordcnt →
  Forall fits (words c) →
  ∃ v c',
    words c !! draw_index r wordcnt (gamecnt c) = Some v
    ∧ new_game wordcnt r c = Ret c'
    ∧ secret (current_game c') = Some v
    ∧ status (current_game c') = game_open
    ∧ errors (current_game c') = 0
    ∧ c_str (obscured (current_game c'))
      = (λ ch, if Ascii.eqb ch space then space else mask) <$> c_str v
    ∧ length (obscured (current_game c')) = MAX_WORD_LENGTH
    ∧ words c' = delete (draw_index r wordcnt (gamecnt c)) (words c)
    ∧ gamecnt c' = S (gamecnt c)
    ∧ clientno c' = clientno c.
Proof.
  intros Hlt Hinv Hfits.
  pose proof (draw_index_lt r wordcnt (gamecnt c) Hlt) as Hpos.
  destruct (words c !! draw_index r wordcnt (gamecnt c)) as [v|] eqn:Hv.
  2:{ apply lookup_ge_None in Hv. lia. }
  destruct (new_game_at wordcnt r c v Hlt Hinv Hv)
    as (c' & Hng & Hsec & Hst & Herr & Hshow & Hlen & Hwords & _ & Hcnt & Hno).
  { by eapply (Forall_lookup_1 fits), Hv. }
  by exists v, c'.
Qed.

(** X1. A New request to a session that has words left draws the word
    at the draw index. When that word leaves room in the buffer for the
    terminator that [new_game] writes at [length + 1], that is when it has
    at most 78 characters, the game is opened for it: the obscured buffer,
    read as a string, is the secret with every character but the spaces
    replaced by the mask (so it has the length of the secret), the error
    count is 0, and the word is taken out of the session's list, which
    keeps the link that ends it. With a longer word [new_game] writes
    outside the buffer. *)
Theorem new_game_masks (wordcnt : nat) (r : N) (c : client) :
  (gamecnt c < wordcnt)%nat →
  (gamecnt c + length (words c))%nat = wordcnt →
  ∃ v,
    words c !! draw_index r wordcnt (gamecnt c) = Some v
    ∧ if decide (strlen v + 1 < MAX_WORD_LENGTH)%nat then
        ∃ c',
          new_game wordcnt r c = Ret c'
          ∧ secret (current_game c') = Some v
          ∧ status (current_game c') = game_open
          ∧ errors (current_game c') = 0
          ∧ c_str (obscured (current_game c'))
            = (λ ch, if Ascii.eqb ch space then space else mask) <$> c_str v
          ∧ length (obscured (current_game c')) = MAX_WORD_LENGTH
          ∧ words c' = delete (draw_index r wordcnt (gamecnt c)) (words c)
          ∧ words_end c' = words_end c
          ∧ gamecnt c' = S (gamecnt c)
          ∧ clientno c' = clientno c
      else new_game wordcnt r c = Fault OutOfBounds.
Proof.
  intros Hlt Hinv.
  pose proof (draw_index_lt r wordcnt (gamecnt c) Hlt) as Hpos.
  destruct (words c !! draw_index r wordcnt (gamecnt c)) as [v|] eqn:Hv.
  2:{ apply lookup_ge_None in Hv. lia. }
  exists v. split; [done|]. case_decide.
  - by apply new_game_at.
  - by apply (new_game_overflow _ _ _ v).
Qed.

(** ** Sequences of guesses *)

Lemma c_str_lookup (l : list ascii) :
  (∀ j, (j < strlen l)%nat → c_str l !!! j = l !!! j)
  ∧ ((strlen l < length l)%nat → l !!! strlen l = NUL).
Proof.
  unfold strlen. induction l as [|ch l [IH1 IH2]]; simpl.
  { split; intros; lia. }
  destruct (Ascii.eqb_spec ch NUL) as [->|Hne]; simpl.
  - split; [intros; lia|done].
  - split.
    + intros [|j] Hj; [done|]. apply IH1. lia.
    + intros Hlt. apply IH2. lia.
Qed.

Lemma c_str_pointwise (s : list ascii) :
  ∀ l : list ascii,
    NUL ∉ s →
    (∀ j, (j < length s)%nat → l !!! j = s !!! j) →
    (length s < length l)%nat →
    l !!! length s = NUL →
    c_str l = s.
Proof.
  induction s as [|ch s IH]; intros l Hnul Hpt Hlen Hend; simpl in *.
  - destruct l as [|x l]; [done|]. simpl in Hend. subst x. done.
  - destruct l as [|x l]; [simpl in Hlen; lia|].
    apply not_elem_of_cons in Hnul as [Hne Hnul].
    pose proof (Hpt 0%nat ltac:(lia)) as H0. simpl in H0. subst x. simpl.
    destruct (Ascii.eqb_spec ch NUL) as [->|_]; [done|].
    f_equal. apply IH; [done| |simpl in Hlen; lia|done].
    intros j Hj. apply (Hpt (S j)). lia.
Qed.

(** A guess that occurs in the secret: the call returns, nothing but the
    buffer and the status changes, and the status is Won when no mask is
    left. *)
Lemma guess_in_secret (c : client) (v : list ascii) (try : ascii) :
  secret (current_game c) = Some v →
  (strlen v ≤ MAX_WORD_LENGTH)%nat →
  length (obscured (current_game c)) = MAX_WORD_LENGTH →
  try ∈ c_str v →
  ∃ c', calculate_results c try = Ret c'
    ∧ secret (current_game c') = Some v
    ∧ errors (current_game c') = errors (current_game c)
    ∧ length (obscured (current_game c')) = MAX_WORD_LENGTH
    ∧ (∀ k, obscured (current_game c') !!! k
            = if decide (k < strlen v)%nat
              then if Ascii.eqb (c_str v !!! k) try then try
                   else obscured (current_game c) !!! k
              else obscured (current_game c) !!! k)
    ∧ ((∀ j, (j < strlen v)%nat → obscured (current_game c') !!! j ≠ mask)
       → status (current_game c') = game_won)
    ∧ (status (current_game c') = game_won
       ∨ status (current_game c') = status (current_game c)).
Proof.
  intros Hsec Hfit Hlen Hin. unfold strlen in *.
  destruct (scan_spec try (c_str v) 0 (obscured (current_game c)) true true)
    as (obs' & won' & Hscan & Hlen'); [done|].
  assert (misses try (c_str v) = false) as Hmiss.
  { destruct (misses try (c_str v)) eqn:Hm; [|done].
    by apply misses_spec in Hm. }
  rewrite Hmiss in Hscan. simpl in Hscan.
  assert (0 + length (c_str v) ≤ length (obscured (current_game c)))%nat
    as Hfit' by lia.
  pose proof (scan_lookup _ _ _ _ _ _ _ _ _ Hfit' Hscan) as Hobs.
  pose proof (scan_won _ _ _ _ _ _ _ _ _ Hfit' Hscan) as Hwon.
  assert (∀ k, obs' !!! k
            = if decide (k < length (c_str v))%nat
              then if Ascii.eqb (c_str v !!! k) try then try
                   else obscured (current_game c) !!! k
              else obscured (current_game c) !!! k) as Hobs'.
  { intros k. rewrite Hobs, Nat.sub_0_r. repeat case_decide; (done || lia). }
  unfold calculate_results. rewrite Hsec. cbn [mbind outcome_bind].
  rewrite Hscan. cbn [mbind outcome_bind].
  destruct won'; simpl.
  - eexists. split; [done|]. simpl. rewrite Hlen', Hlen.
    repeat split; try done. by left.
  - eexists. split; [done|]. simpl. rewrite Hlen', Hlen.
    repeat split; try done; [|by right].
    intros Hall. assert (false = true) as Habs; [|done].
    apply Hwon. split; [done|]. intros j Hj. by apply Hall.
Qed.

Lemma guesses_in_secret (v : list ascii) (tries : list ascii) :
  ∀ c : client,
    secret (current_game c) = Some v →
    (strlen v ≤ MAX_WORD_LENGTH)%nat →
    length (obscured (current_game c)) = MAX_WORD_LENGTH →
    Forall (λ try, try ∈ c_str v) tries →
    ∃ c', guesses tries c = Ret c'
      ∧ secret (current_game c') = Some v
      ∧ errors (current_game c') = errors (current_game c)
      ∧ length (obscured (current_game c')) = MAX_WORD_LENGTH
      ∧ (∀ k, (k < strlen v)%nat → c_str v !!! k ∈ tries →
              obscured (current_game c') !!! k = c_str v !!! k)
      ∧ (∀ k, ¬ ((k < strlen v)%nat ∧ c_str v !!! k ∈ tries) →
              obscured (current_game c') !!! k
              = obscured (current_game c) !!! k)
      ∧ (tries ≠ [] →
         (∀ j, (j < strlen v)%nat → obscured (current_game c') !!! j ≠ mask) →
         status (current_game c') = game_won).
Proof.
  induction tries as [|try tries IH]; intros c Hsec Hfit Hlen Hall.
  { exists c. simpl. repeat split; try done.
    intros k _ Hin. by apply elem_of_nil in Hin. }
  apply Forall_cons in Hall as [Hin Hall].
  destruct (guess_in_secret c v try Hsec Hfit Hlen Hin)
    as (c1 & Hc1 & Hsec1 & Herr1 & Hlen1 & Hobs1 & Hwon1 & _).
  destruct (IH c1 Hsec1 Hfit Hlen1 Hall)
    as (c' & Hc' & Hsec' & Herr' & Hlen' & Hin' & Hout' & Hwon').
  exists c'. cbn [guesses]. rewrite Hc1. cbn [mbind outcome_bind].
  split; [done|]. split; [done|]. split; [congruence|]. split; [done|].
  split; [|split].
  - intros k Hk Hk'.
    destruct (decide (c_str v !!! k ∈ tries)) as [Hts|Hts]; [by apply Hin'|].
    rewrite Hout' by tauto. rewrite Hobs1. case_decide; [|lia].
    apply elem_of_cons in Hk' as [Heq|?]; [|done].
    destruct (Ascii.eqb_spec (c_str v !!! k) try); done.
  - intros k Hk. rewrite Hout'.
    + rewrite Hobs1. case_decide; [|done].
      destruct (Ascii.eqb_spec (c_str v !!! k) try) as [Heq|]; [|done].
      exfalso. apply Hk. split; [done|]. rewrite Heq. apply list_elem_of_here.
    + intros [Hk1 Hk2]. apply Hk. split; [done|]. by apply list_elem_of_further.
  - intros _ Hun. destruct tries as [|try' tries'].
    + simpl in Hc'. injection Hc' as <-. by apply Hwon1.
    + by apply Hwon'.
Qed.

(** X2. A game opened for a word without the mask character and then
    guessed with letters of the word, at least one and among them every
    character of the word that is not a space, ends with the status Won,
    the word shown in full and no error counted, in whatever order and
    however often the letters come. *)
Theorem full_guess_wins (wordcnt : nat) (r : N) (c : client)
    (v tries : list ascii) :
  (gamecnt c < wordcnt)%nat →
  (gamecnt c + length (words c))%nat = wordcnt →
  Forall fits (words c) →
  words c !! draw_index r wordcnt (gamecnt c) = Some v →
  mask ∉ c_str v →
  tries ≠ [] →
  Forall (λ try, try ∈ c_str v) tries →
  (∀ ch, ch ∈ c_str v → ch ≠ space → ch ∈ tries) →
  ∃ c1 c', new_game wordcnt r c = Ret c1
    ∧ guesses tries c1 = Ret c'
    ∧ status (current_game c') = game_won
    ∧ c_str (obscured (current_game c')) = c_str v
    ∧ errors (current_game c') = 0.
Proof.
  intros Hlt Hinv Hfits Hv Hmask Hne Hin Hcover.
  destruct (new_game_opens wordcnt r c Hlt Hinv Hfits)
    as (v' & c1 & Hv' & Hnew & Hsec & _ & Herr & Hshow & Hlen & _).
  rewrite Hv in Hv'. injection Hv' as <-.
  assert (fits v) as Hfit by (by eapply (Forall_lookup_1 fits), Hv).
  unfold fits in Hfit.
  destruct (guesses_in_secret v tries c1 Hsec ltac:(lia) Hlen Hin)
    as (c' & Hc' & _ & Herr' & Hlen' & Hshown & Hkept & Hwon).
  exists c1, c'. split; [done|]. split; [done|].
  pose proof (c_str_lookup (obscured (current_game c1))) as [Hpt Hend].
  unfold strlen in *. rewrite Hshow, length_fmap in Hpt, Hend.
  assert (∀ k, (k < length (c_str v))%nat →
               obscured (current_game c') !!! k = c_str v !!! k) as Hfull.
  { intros k Hk.
    destruct (decide (c_str v !!! k ∈ tries)) as [Hts|Hts]; [by apply Hshown|].
    rewrite Hkept by tauto. rewrite <- Hpt by done.
    rewrite (list_lookup_total_fmap
               (λ ch, if Ascii.eqb ch space then space else mask) (c_str v) k)
      by done.
    destruct (Ascii.eqb_spec (c_str v !!! k) space) as [Heq|Hsp]; [done|].
    exfalso. apply Hts, Hcover; [|done].
    by apply list_elem_of_lookup_total_2. }
  split; [|split; [|congruence]].
  - apply Hwon; [done|]. intros j Hj. rewrite Hfull by done.
    intros Heq. apply Hmask. rewrite <- Heq.
    by apply list_elem_of_lookup_total_2.
  - apply c_str_pointwise; [apply c_str_no_NUL|done|lia|].
    rewrite Hkept by lia. apply Hend. lia.
Qed.

(** X3. [calculate_results] does not look at the status: when a guess
    has turned a game that was not lost into a lost one, so that the buffer
    holds the secret, and the secret is free of the mask character, one
    more guess with any letter turns the status into Won; buffer and error
    count stay as the loss left them. *)
Theorem guess_after_loss_wins (c c1 : client) (v : list ascii)
    (try1 try2 : ascii) :
  secret (current_game c) = Some v →
  length (obscured (current_game c)) = MAX_WORD_LENGTH →
  mask ∉ c_str v →
  status (current_game c) ≠ game_lost →
  calculate_results c try1 = Ret c1 →
  status (current_game c1) = game_lost →
  ∃ c2, calculate_results c1 try2 = Ret c2
    ∧ status (current_game c2) = game_won
    ∧ obscured (current_game c2) = obscured (current_game c1)
    ∧ errors (current_game c2) = errors (current_game c1).
Proof.
  intros Hsec Hlen Hmask Hst Hcalc Hlost.
  unfold calculate_results in Hcalc. rewrite Hsec in Hcalc.
  destruct (scan _ _ _ _ _ _) as [[[obs error] won]|] eqn:Hscan; [|done].
  assert (0 + length (c_str v) ≤ MAX_WORD_LENGTH)%nat as Hfit.
  { eapply scan_fits; [|exact Hscan]. lia. }
  cbn [mbind outcome_bind] in Hcalc.
  destruct won; [injection Hcalc as <-; done|].
  destruct error; simpl in Hcalc; [|injection Hcalc as <-; done].
  case_decide; injection Hcalc as <-; [|done].
  unfold calculate_results. simpl.
  rewrite scan_unmasked; [by eexists|done|].
  intros j Hj. simpl. unfold strncpy.
  rewrite take_ge by (simpl in Hfit; lia).
  rewrite lookup_total_app_l by done. split; [done|].
  intros Heq. apply Hmask. rewrite <- Heq. by apply list_elem_of_lookup_total_2.
Qed.

(** ** The list of sessions *)


Lemma session_in_cons (no : Z) (c : client) (l : list client) :
  session_in no (c :: l)
  = if clientno c =? no then Some c else session_in no l.
Proof.
  unfold session_in. simpl. destruct (clientno c =? no); [done|].
  by destruct (find_client no l) as [[[pre cur] suf]|].
Qed.

Lemma session_in_app (no : Z) (l1 l2 : list client) :
  session_in no (l1 ++ l2)
  = match session_in no l1 with
    | Some c => Some c
    | None => session_in no l2
    end.
Proof.
  induction l1 as [|c l1 IH]; [done|].
  rewrite <- app_comm_cons, !session_in_cons.
  by destruct (clientno c =? no).
Qed.

Lemma new_game_frame (wc : nat) (r : N) (c c' : client) :
  new_game wc r c = Ret c' → clientno c' = clientno c.
Proof.
  unfold new_game. case_decide; [by intros [= <-]|].
  destruct (unlink _ _ _) as [[v rest]|]; [|done]. cbn [mbind outcome_bind].
  destruct (obscure _ _ _) as [obs|]; [|done]. cbn [mbind outcome_bind].
  case_decide; [|done]. by intros [= <-].
Qed.

(** What a pass that goes on does to the list and to the counter: the
    client it works on keeps its number, and a new client gets the value of
    the counter. *)
Lemma dispatch_sessions (e : env) (sh sh' : shm) (st st' : server)
    (tr : list event) :
  dispatch e sh st = Continue st' sh' tr →
  ∃ pre cur suf,
    ((shm_clientno sh = -1 ∧ pre = [] ∧ suf = clients st
      ∧ clientno cur = to_int (client_count st)
      ∧ client_count st' = (client_count st + 1) mod UINT_MODULUS)
     ∨ (shm_clientno sh ≠ -1 ∧ clients st = pre ++ cur :: suf
        ∧ clientno cur = shm_clientno sh
        ∧ client_count st' = client_count st))
    ∧ ((shm_terminate sh = true ∧ clients st' = pre ++ suf
        ∧ tr = [SemPost clt_sem])
       ∨ (shm_terminate sh = false ∧ tr = [SemPost ret_sem]
          ∧ ∃ cur', clients st' = pre ++ cur' :: suf
                    ∧ clientno cur' = clientno cur)).
Proof.
  intros Hd. destruct (shm_terminate sh) eqn:Hterm.
  - apply dispatch_terminate in Hd
      as (pre & cur & suf & count & Hres & _ & -> & _ & ->); [|done].
    exists pre, cur, suf. split; [|left; by repeat split].
    apply resolve_Some in Hres as [(? & -> & -> & -> & ->)|(? & Hfind & ->)].
    + left. by repeat split.
    + right. apply find_client_Some in Hfind as (? & ? & _). by repeat split.
  - apply dispatch_update in Hd
      as (pre & cur & suf & count & cur' & Hres & Hupd & -> & _ & ->); [|done].
    exists pre, cur, suf. split.
    + apply resolve_Some in Hres as [(? & -> & -> & -> & ->)|(? & Hfind & ->)].
      * left. by repeat split.
      * right. apply find_client_Some in Hfind as (? & ? & _). by repeat split.
    + right. repeat split; try done. exists cur'. split; [done|].
      case_decide; [by eapply new_game_frame|].
      by apply calculate_results_frame in Hupd as (? & _).
Qed.

Lemma dispatch_ids (e : env) (sh sh' : shm) (st st' : server)
    (tr : list event) :
  ids_distinct st →
  client_count st < 2 ^ 31 →
  dispatch e sh st = Continue st' sh' tr →
  ids_distinct st' ∧ client_count st' ≤ client_count st + 1.
Proof.
  intros (Hpos & Hall & Hnd) Hmax Hd.
  apply dispatch_sessions in Hd as (pre & cur & suf & Hcur & Hnext).
  unfold ids_distinct.
  assert (to_int (client_count st) = client_count st) as Hint.
  { unfold to_int. by case_decide; [|lia]. }
  assert ((client_count st + 1) `mod` UINT_MODULUS = client_count st + 1)
    as Hwrap by (apply Z.mod_small; unfold UINT_MODULUS; lia).
  destruct Hcur as [(_ & -> & -> & Hno & ->)|(_ & Hl & Hno & ->)].
  - rewrite Hwrap, Hint in *.
    assert (Forall (λ c, 0 ≤ clientno c < client_count st + 1) (clients st))
      as Hall' by (eapply Forall_impl; [exact Hall|]; simpl; lia).
    destruct Hnext as [(_ & -> & _)|(_ & _ & cur' & -> & Hno')].
    + split; [|lia]. repeat split; (done || lia).
    + rewrite Hno in Hno'. split; [|lia]. repeat split; [lia| |].
      * constructor; [lia|done].
      * simpl. apply NoDup_cons. split; [|done]. rewrite Hno'.
        intros (c & Hc & Hin)%list_elem_of_fmap.
        rewrite Forall_forall in Hall. specialize (Hall c Hin). lia.
  - rewrite Hl in Hall, Hnd.
    apply Forall_app in Hall as [Hpre Hsuf].
    apply Forall_cons in Hsuf as [Hc Hsuf].
    rewrite fmap_app, fmap_cons in Hnd.
    destruct Hnext as [(_ & -> & _)|(_ & _ & cur' & -> & Hno')].
    + split; [|lia]. repeat split; [done|by apply Forall_app|].
      rewrite fmap_app. rewrite <- Permutation_middle in Hnd.
      by apply NoDup_cons in Hnd as [_ ?].
    + split; [|lia]. repeat split; [done| |].
      * apply Forall_app. split; [done|]. constructor; [by rewrite Hno'|done].
      * by rewrite fmap_app, fmap_cons, Hno'.
Qed.

Lemma serve_ids (reqs : list (env * (shm → shm))) :
  ∀ (st st' : server) (sh sh' : shm) (tr : list event),
    ids_distinct st →
    client_count st + Z.of_nat (length reqs) ≤ 2 ^ 31 →
    serve reqs st sh = Continue st' sh' tr →
    ids_distinct st'
    ∧ client_count st' ≤ client_count st + Z.of_nat (length reqs).
Proof.
  induction reqs as [|[e w] reqs IH]; intros st st' sh sh' tr Hids Hmax; simpl.
  - intros [= <- <- <-]. split; [done|lia].
  - destruct (dispatch e (w sh) st) as [st1 sh1 tr1| |] eqn:Hd; [|done|done].
    destruct (serve reqs st1 sh1) as [st2 sh2 tr2| |] eqn:Hs; [|done|done].
    intros [= <- <- <-].
    apply dispatch_ids in Hd as [Hids1 Hc1]; [|done|simpl in Hmax; lia].
    destruct (IH _ _ _ _ _ Hids1 ltac:(simpl in Hmax; lia) Hs) as [Hids2 Hc2].
    split; [done|]. simpl in *. lia.
Qed.

(** X4. A server started on any dictionary that has served fewer than
    2^31 requests has handed out at most one number per request, and the
    numbers of the sessions in its list are different from each other and
    below the counter. *)
Theorem client_numbers_distinct (buf0 f : list ascii)
    (reqs : list (env * (shm → shm))) (st0 st : server) (sh0 sh : shm)
    (tr : list event) :
  startup buf0 f = Ret st0 →
  serve reqs st0 sh0 = Continue st sh tr →
  Z.of_nat (length reqs) < 2 ^ 31 →
  NoDup (clientno <$> clients st)
  ∧ Forall (λ c, 0 ≤ clientno c < client_count st) (clients st)
  ∧ client_count st ≤ Z.of_nat (length reqs).
Proof.
  intros Hstart Hserve Hmax.
  apply startup_counts in Hstart as (_ & Hcl & Hcount).
  destruct (serve_ids reqs st0 st sh0 sh tr) as [(_ & Hall & Hnd) Hle];
    [|lia|done|].
  - unfold ids_distinct. rewrite Hcl, Hcount.
    repeat split; [done|constructor|constructor].
  - repeat split; (done || lia).
Qed.

(** X5. A pass through the loop for another number leaves a session as it
    is: when the numbers in the list are distinct and below the counter, the
    session found for a number is found unchanged after any pass that goes
    on and whose request carries a different number. *)
Theorem other_sessions_untouched (e : env) (sh sh' : shm) (st st' : server)
    (tr : list event) (no : Z) (c : client) :
  ids_distinct st →
  client_count st < 2 ^ 31 →
  session_of no st = Some c →
  shm_clientno sh ≠ no →
  dispatch e sh st = Continue st' sh' tr →
  session_of no st' = Some c.
Proof.
  intros (Hpos & Hall & _) Hmax Hses Hne Hd. unfold session_of in *.
  assert (clientno c = no ∧ c ∈ clients st) as [Hno Hin].
  { unfold session_in in Hses.
    destruct (find_client no (clients st)) as [[[pre c'] suf]|] eqn:Hf; [|done].
    injection Hses as ->. apply find_client_Some in Hf as (-> & ? & _).
    split; [done|]. apply elem_of_app. right. apply list_elem_of_here. }
  assert (to_int (client_count st) ≠ no) as Hfresh.
  { unfold to_int. case_decide; [|lia].
    rewrite Forall_forall in Hall. specialize (Hall c Hin). lia. }
  apply dispatch_sessions in Hd as (pre & cur & suf & Hcur & Hnext).
  destruct Hcur as [(_ & -> & -> & Hcno & _)|(_ & Hl & Hcno & _)].
  - destruct Hnext as [(_ & -> & _)|(_ & _ & cur' & -> & Hno')]; [done|].
    simpl. rewrite session_in_cons.
    destruct (Z.eqb_spec (clientno cur') no); [congruence|done].
  - rewrite Hl, session_in_app, session_in_cons in Hses.
    destruct (Z.eqb_spec (clientno cur) no) as [?|_]; [congruence|].
    destruct Hnext as [(_ & -> & _)|(_ & _ & cur' & -> & Hno')].
    + by rewrite session_in_app.
    + rewrite session_in_app, session_in_cons.
      destruct (Z.eqb_spec (clientno cur') no); [congruence|done].
Qed.

(** ** Posts and passes *)

Lemma posts_one (s s' : sem) :
  posts s [SemPost s'] = if decide (s' = s) then 1%nat else 0%nat.
Proof.
  unfold posts. case_decide as Heq.
  - subst. by rewrite filter_cons_True.
  - rewrite filter_cons_False; [done|]. intros [= ?]. by apply Heq.
Qed.

(** X6. Every request the server serves is answered by exactly one post:
    over any run of the loop the posts of the gate and of response-ready
    add up to the number of requests served, the trace holds nothing else,
    and request-pending is never posted by the server. *)
Theorem one_post_per_request (reqs : list (env * (shm → shm))) :
  ∀ (st st' : server) (sh sh' : shm) (tr : list event),
    serve reqs st sh = Continue st' sh' tr →
    (posts clt_sem tr + posts ret_sem tr)%nat = length reqs
    ∧ length tr = length reqs
    ∧ posts srv_sem tr = 0%nat.
Proof.
  induction reqs as [|[e w] reqs IH]; intros st st' sh sh' tr; simpl.
  - by intros [= <- <- <-].
  - destruct (dispatch e (w sh) st) as [st1 sh1 tr1| |] eqn:Hd; [|done|done].
    destruct (serve reqs st1 sh1) as [st2 sh2 tr2| |] eqn:Hs; [|done|done].
    intros [= <- <- <-]. apply IH in Hs as (Hsum & Hlen & Hsrv).
    rewrite !posts_app, length_app.
    apply dispatch_sessions in Hd
      as (pre & cur & suf & _ & [(_ & _ & ->)|(_ & -> & _)]);
      rewrite !posts_one; repeat case_decide; try done; simpl; lia.
Qed.





Lemma fresh_client_end (e : env) (st : server) :
  words_end (fresh_client e st)
  = match srv_words st with [] => Null | _ => malloc_next e end.
Proof. done. Qed.






(** X9. The first request of a client must ask for a new game: a guess
    that comes with the number -1 makes [calculate_results] follow the
    secret pointer of the block just allocated, which nothing has set. *)
Theorem guess_before_registration (e : env) (sh : shm) (st : server) :
  shm_clientno sh = -1 →
  shm_terminate sh = false →
  shm_status sh ≠ game_new →
  dispatch e sh st = Crash Uninitialised.
Proof.
  intros Hno Hterm Hst. unfold dispatch, resolve. rewrite Hno. simpl.
  rewrite Hterm. by case_decide.
Qed.

(** ** Registration and the exchange *)

Lemma fits_c_str (w : list ascii) : fits w → fits (c_str w).
Proof. unfold fits, strlen. by rewrite c_str_idemp. Qed.

(** X10. The first request of a client, New with the number -1, on a
    server whose words fit the buffer and whose dictionary is not empty: the
    pass goes on, puts a session with the value of [client_count] as number
    in front of the others, which it leaves alone, draws the word at the
    draw index of the master list for it, and answers with that number,
    the status Open, no errors and the masked word. *)
Theorem first_contact (e : env) (sh : shm) (st : server) :
  shm_clientno sh = -1 →
  shm_terminate sh = false →
  shm_status sh = game_new →
  sem_post_ok e = true →
  (0 < wordcnt st)%nat →
  wordcnt st = length (srv_words st) →
  Forall fits (srv_words st) →
  ∃ w c' sh',
    srv_words st !! draw_index (rand_value e) (wordcnt st) 0 = Some w
    ∧ dispatch e sh st
      = Continue (mk_server (srv_words st) (wordcnt st) (c' :: clients st)
                            ((client_count st + 1) mod UINT_MODULUS))
                 sh' [SemPost ret_sem]
    ∧ clientno c' = to_int (client_count st)
    ∧ secret (current_game c') = Some (c_str w)
    ∧ gamecnt c' = 1%nat
    ∧ length (words c') = (wordcnt st - 1)%nat
    ∧ shm_clientno sh' = to_int (client_count st)
    ∧ shm_status sh' = game_open
    ∧ shm_errors sh' = 0
    ∧ c_str (shm_word sh')
      = (λ ch, if Ascii.eqb ch space then space else mask) <$> c_str w.
Proof.
  intros Hno Hterm Hnew Hpost Hpos Hwc Hfits.
  destruct (new_game_opens (wordcnt st) (rand_value e) (fresh_client e st))
    as (v & c' & Hv & Hng & Hsec & Hst & Herr & Hshow & Hlen & Hwords & Hcnt & Hid).
  { done. }
  { simpl. unfold Wordlist.wordlist_copy. by rewrite length_fmap. }
  { simpl. unfold Wordlist.wordlist_copy. apply Forall_fmap.
    eapply Forall_impl; [exact Hfits|]. apply fits_c_str. }
  simpl in Hv, Hwords, Hcnt, Hid. unfold Wordlist.wordlist_copy in Hv, Hwords.
  rewrite list_lookup_fmap in Hv.
  destruct (srv_words st !! draw_index (rand_value e) (wordcnt st) 0)
    as [w|] eqn:Hw; [|done].
  injection Hv as <-. rewrite c_str_idemp in Hshow.
  unfold dispatch, resolve. rewrite Hno. simpl. rewrite Hterm.
  case_decide; [|done]. rewrite Hng, Hpost.
  exists w, c'. eexists. split; [done|]. split; [done|]. simpl.
  rewrite Hst, Herr, Hid, Hwords, length_delete, length_fmap
    by (rewrite list_lookup_fmap, Hw; eauto).
  repeat split; try done; [lia|].
  rewrite c_str_strncpy_lt; [done|].
  assert (fits w) as Hfit by (by eapply (Forall_lookup_1 fits), Hw).
  unfold strlen, fits in *. rewrite Hshow, length_fmap. unfold strlen in Hfit. lia.
Qed.

(** X11. After an exchange the client holds what the server holds for
    it: its number, status and error count are those of a session in the
    server's list and its buffer shows that session's obscured word; a
    client that had a number keeps it, and the guess it sent is still in
    [c]. *)
Theorem exchange_round_trip (e : env) (cs cs' : Client.state)
    (st st' : server) (sh sh' : shm) :
  exchange e cs st sh = Some (cs', st', sh') →
  ∃ pre cur suf,
    clients st' = pre ++ cur :: suf
    ∧ Client.clientno cs' = clientno cur
    ∧ Client.game_status cs' = status (current_game cur)
    ∧ Client.errors cs' = errors (current_game cur)
    ∧ ((strlen (obscured (current_game cur)) < MAX_WORD_LENGTH)%nat →
       c_str (Client.buf cs') = c_str (obscured (current_game cur)))
    ∧ (Client.clientno cs ≠ -1 → Client.clientno cs' = Client.clientno cs)
    ∧ Client.c cs' = Client.c cs
    ∧ shm_terminate sh' = false.
Proof.
  unfold exchange, Client.send, Client.receive.
  destruct (shm_terminate sh) eqn:Hterm; [done|].
  destruct (dispatch e (Client.request cs sh) st) as [st1 sh1 tr1| |] eqn:Hd;
    [|done|done].
  intros [= <- <- <-].
  apply dispatch_update in Hd
    as (pre & cur & suf & count & cur' & Hres & Hupd & -> & -> & _); [|done].
  exists pre, cur', suf. simpl. repeat split; try done.
  - intros Hlen. by rewrite !c_str_strncpy_lt; unfold strlen;
      rewrite ?c_str_strncpy_lt.
  - intros Hno.
    apply resolve_Some in Hres as [(? & _)|(_ & Hfind & _)]; [done|].
    apply find_client_Some in Hfind as (_ & Hcur & _). simpl in Hcur.
    rewrite <- Hcur. case_decide; [by eapply new_game_frame|].
    by apply calculate_results_frame in Hupd as (? & _).
Qed.

(** ** A dictionary of one word *)

Lemma insert_middle (l1 l2 : list ascii) (x y : ascii) (n : nat) :
  n = length l1 → <[n := y]> (l1 ++ x :: l2) = l1 ++ y :: l2.
Proof.
  intros ->. rewrite insert_app_r_alt by lia. by rewrite Nat.sub_diag.
Qed.

Lemma fgets_take_line (line rest : list ascii) :
  ∀ room, newline ∉ line → (length line < room)%nat →
    Wordlist.fgets_take room (line ++ newline :: rest)
    = (line ++ [newline], rest).
Proof.
  induction line as [|ch line IH]; intros room Hnl Hroom; simpl in *.
  - destruct room as [|room]; [lia|]. done.
  - destruct room as [|room]; [lia|].
    apply not_elem_of_cons in Hnl as [Hne Hnl]. simpl.
    destruct (Ascii.eqb_spec ch newline) as [?|_]; [congruence|].
    rewrite IH by (done || lia). done.
Qed.

Lemma strcspn_line (line t : list ascii) :
  NUL ∉ line → newline ∉ line →
  strcspn (line ++ newline :: t) [newline] = length line.
Proof.
  induction line as [|ch line IH]; intros Hnul Hnl; simpl.
  - done.
  - apply not_elem_of_cons in Hnul as [Hne1 Hnul].
    apply not_elem_of_cons in Hnl as [Hne2 Hnl].
    destruct (Ascii.eqb_spec ch NUL) as [?|_]; [congruence|].
    destruct (Ascii.eqb_spec ch newline) as [?|_]; [congruence|].
    simpl. by rewrite IH.
Qed.

(** What [fgets] and the replacement of the newline make of a line. *)
Lemma read_line (line rest buf : list ascii) :
  NUL ∉ line → newline ∉ line →
  (length line + 1 < Wordlist.MAXLINELEN)%nat →
  ∃ tail,
    Wordlist.fgets buf Wordlist.MAXLINELEN (line ++ newline :: rest)
    = Some (line ++ newline :: NUL :: tail, rest)
    ∧ <[strcspn (line ++ newline :: NUL :: tail) [newline] := NUL]>
        (line ++ newline :: NUL :: tail)
      = line ++ NUL :: NUL :: tail.
Proof.
  intros Hnul Hnl Hlen. eexists. unfold Wordlist.fgets.
  destruct (line ++ newline :: rest) as [|x f] eqn:Hf.
  { by destruct line. }
  rewrite <- Hf. rewrite fgets_take_line by (done || lia).
  rewrite <- app_assoc. simpl. split; [done|].
  rewrite strcspn_line by done. by apply insert_middle.
Qed.

Lemma kept_not_NUL (ch : ascii) : kept ch = true → toupper ch ≠ NUL.
Proof.
  destruct ch as [[] [] [] [] [] [] [] []]; vm_compute; congruence.
Qed.

Lemma word_of_no_NUL (line : list ascii) : NUL ∉ word_of line.
Proof.
  unfold word_of. induction line as [|ch line IH]; simpl;
    [apply not_elem_of_nil|].
  destruct (kept ch) eqn:Hk; [|done].
  rewrite fmap_cons. apply not_elem_of_cons. split; [|done].
  intros Heq. by apply (kept_not_NUL ch).
Qed.

(** The inner loop on a line, while [ptr] has not passed [s]: the
    characters kept so far are at the front of the buffer, in upper case,
    and the terminator of the line is still in place. *)
Lemma filter_line_front (rem : list ascii) :
  ∀ (fuel s ptr : nat) (out mid tail : list ascii),
    NUL ∉ rem →
    (length rem < fuel)%nat →
    (length out + length mid + length rem < Wordlist.MAXLINELEN)%nat →
    s = (length out + length mid)%nat →
    ptr = length out →
    ∃ mid',
      Wordlist.filter_line fuel (out ++ mid ++ rem ++ NUL :: tail) s ptr
      = Ret ((out ++ word_of rem) ++ mid' ++ NUL :: tail,
             (length out + length (word_of rem))%nat).
Proof.
  induction rem as [|ch rem IH];
    intros fuel s ptr out mid tail Hnul Hfuel Hlen -> ->;
    (destruct fuel as [|fuel]; [simpl in Hfuel; lia|]);
    cbn [Wordlist.filter_line]; (case_decide; [|simpl in Hlen; lia]).
  - exists mid. cbn [app]. rewrite (app_assoc out mid).
    rewrite list_lookup_total_middle by (by rewrite length_app).
    simpl. unfold word_of. simpl. by rewrite app_nil_r, Nat.add_0_r, <- app_assoc.
  - apply not_elem_of_cons in Hnul as [Hne Hnul]. simpl in Hfuel, Hlen.
    rewrite (app_assoc out mid), <- app_comm_cons.
    rewrite list_lookup_total_middle by (by rewrite length_app).
    cbv zeta.
    destruct (Ascii.eqb_spec ch NUL) as [?|_]; [congruence|].
    fold (kept ch). unfold word_of. simpl. destruct (kept ch) eqn:Hk.
    + case_decide; [|lia]. rewrite fmap_cons.
      destruct mid as [|m mid0].
      * rewrite app_nil_r. rewrite insert_middle by done.
        destruct (IH fuel (S (length out + length (@nil ascii))) (S (length out))
                    (out ++ [toupper ch]) [] tail) as (mid' & Hrec);
          [done|lia|rewrite length_app; simpl; lia
          |rewrite length_app; simpl; lia|rewrite length_app; simpl; lia|].
        rewrite <- !app_assoc in Hrec. simpl in Hrec. simpl.
        rewrite Hrec. exists mid'. unfold word_of.
        rewrite length_app, <- !app_assoc. simpl. do 2 f_equal. lia.
      * rewrite <- app_assoc, <- app_comm_cons. rewrite insert_middle by done.
        destruct (IH fuel (S (length out + length (m :: mid0))) (S (length out))
                    (out ++ [toupper ch]) (mid0 ++ [ch]) tail)
          as (mid' & Hrec);
          [done|lia|rewrite !length_app; simpl in *; lia
          |rewrite !length_app; simpl; lia|rewrite length_app; simpl; lia|].
        rewrite <- !app_assoc in Hrec. simpl in Hrec. simpl.
        rewrite Hrec. exists mid'. unfold word_of.
        rewrite length_app, <- !app_assoc. simpl. do 2 f_equal. lia.
    + destruct (IH fuel (S (length out + length mid)) (length out)
                  out (mid ++ [ch]) tail) as (mid' & Hrec);
        [done|lia|rewrite length_app; simpl; lia
        |rewrite length_app; simpl; lia|done|].
      rewrite <- !app_assoc in Hrec. simpl in Hrec.
      rewrite <- !app_assoc. rewrite Hrec. exists mid'.
      by rewrite <- app_assoc.
Qed.

Lemma read_lines_blanks (k : nat) :
  ∀ (fuel : nat) (f buf : list ascii) (ptr : nat) (acc : list (list ascii)),
    ∃ buf',
      Wordlist.read_lines (k + fuel) (replicate k newline ++ f) buf ptr acc
      = Wordlist.read_lines fuel f buf' ptr acc.
Proof.
  induction k as [|k IH]; intros fuel f buf ptr acc; [by exists buf|].
  cbn [replicate Nat.add app]. rewrite read_lines_unfold.
  destruct (read_line [] (replicate k newline ++ f) buf)
    as (tail & Hget & Hins);
    [apply not_elem_of_nil|apply not_elem_of_nil|unfold Wordlist.MAXLINELEN; simpl; lia|].
  cbn [app] in Hget, Hins. rewrite Hget. cbv zeta. rewrite Hins.
  change ((NUL :: NUL :: tail) !!! 0%nat) with NUL.
  change (Ascii.eqb NUL NUL) with true. cbv iota.
  apply IH.
Qed.

Lemma read_lines_word (line rest buf : list ascii) (fuel : nat)
    (acc : list (list ascii)) :
  NUL ∉ line → newline ∉ line → line ≠ [] →
  (length line + 1 < Wordlist.MAXLINELEN)%nat →
  ∃ buf',
    Wordlist.read_lines (S fuel) (line ++ newline :: rest) buf 0 acc
    = Wordlist.read_lines fuel rest buf' (length (word_of line))
        (acc ++ [word_of line]).
Proof.
  intros Hnul Hnl Hne Hlen. rewrite read_lines_unfold.
  destruct (read_line line rest buf Hnul Hnl Hlen) as (tail & Hget & Hins).
  rewrite Hget. cbv zeta. rewrite Hins.
  assert (Ascii.eqb ((line ++ NUL :: NUL :: tail) !!! 0%nat) NUL = false) as ->.
  { destruct line as [|ch line]; [done|]. simpl. apply Ascii.eqb_neq.
    intros ->. apply Hnul, list_elem_of_here. }
  destruct (filter_line_front line (S Wordlist.MAXLINELEN) 0 0 [] []
              (NUL :: tail)) as (mid' & Hfilter); [done|lia|simpl; lia|done..|].
  cbn [app length Nat.add] in Hfilter. rewrite Hfilter.
  cbn [mbind outcome_bind].
  assert (length (word_of line) ≤ length line)%nat as Hshort.
  { unfold word_of. rewrite length_fmap. apply List.filter_length_le. }
  case_decide; [|lia].
  assert (c_str (<[length (word_of line) := NUL]>
                   (word_of line ++ mid' ++ NUL :: NUL :: tail))
          = word_of line) as ->.
  { destruct (mid' ++ NUL :: NUL :: tail) as [|x q] eqn:Hq;
      [by destruct mid'|].
    rewrite insert_middle by done.
    apply c_str_app_NUL, word_of_no_NUL. }
  by eexists.
Qed.

(** X12. A dictionary of one word is read as the interface asks: for a
    stream with one line that is not blank, shorter than the buffer and
    ended by a newline, with any number of blank lines before and after
    it and whatever the stack holds, [wordlist_read] returns the one word
    made of the letters and spaces of the line in upper case, and the
    count 1. *)
Theorem one_word_dictionary (buf0 line : list ascii) (k m : nat) :
  NUL ∉ line → newline ∉ line → line ≠ [] →
  (length line + 1 < Wordlist.MAXLINELEN)%nat →
  Wordlist.wordlist_read buf0
    (replicate k newline ++ line ++ newline :: replicate m newline) []
  = Ret ([word_of line], 1%nat).
Proof.
  intros Hnul Hnl Hne Hlen. unfold Wordlist.wordlist_read.
  replace (S (length (replicate k newline ++ line ++ newline :: replicate m newline)))
    with (k + S (m + S (length line)))%nat
    by (rewrite !length_app, !length_replicate; simpl;
        rewrite length_replicate; lia).
  destruct (read_lines_blanks k (S (m + S (length line)))
              (line ++ newline :: replicate m newline) buf0 0 [])
    as (buf1 & ->).
  destruct (read_lines_word line (replicate m newline) buf1
              (m + S (length line)) [] Hnul Hnl Hne Hlen) as (buf2 & ->).
  destruct (read_lines_blanks m (S (length line)) [] buf2
              (length (word_of line)) ([] ++ [word_of line])) as (buf3 & Hend).
  rewrite app_nil_r in Hend. rewrite Hend.
  rewrite read_lines_unfold. done.
Qed.

Lemma read_blank_lines (buf0 : list ascii) (k : nat) :
  Wordlist.wordlist_read buf0 (replicate k newline) [] = Ret ([], 0%nat).
Proof.
  unfold Wordlist.wordlist_read.
  replace (S (length (replicate k newline))) with (k + 1)%nat
    by (rewrite length_replicate; lia).
  destruct (read_lines_blanks k 1 [] buf0 0 []) as (buf1 & Hend).
  rewrite app_nil_r in Hend. rewrite Hend. by rewrite read_lines_unfold.
Qed.

(** X13. A dictionary without words: a stream of blank lines only, the
    empty stream among them, gives the empty list and the count 0. *)
Theorem blank_dictionary (buf0 : list ascii) (k : nat) :
  Wordlist.wordlist_read buf0 (replicate k newline) [] = Ret ([], 0%nat).
Proof. apply read_blank_lines. Qed.

(** ** The player's guesses *)

Lemma isupper_capitals (ch : ascii) : isupper ch = true → ch ∈ capitals.
Proof.
  destruct ch as [[] [] [] [] [] [] [] []];
    (intros H; vm_compute in H; discriminate H)
    || (intros _; unfold capitals; simpl; repeat constructor).
Qed.

Lemma toupper_alpha_upper (ch : ascii) :
  isalpha (toupper ch) = true → isupper (toupper ch) = true.
Proof.
  destruct ch as [[] [] [] [] [] [] [] []]; vm_compute; congruence.
Qed.

Lemma capitals_bound (l : list ascii) :
  NoDup l → Forall (λ ch, isupper ch = true) l → (length l ≤ 26)%nat.
Proof.
  intros Hnd Hup.
  change 26%nat with (length capitals).
  apply submseteq_length, NoDup_submseteq; [done|].
  intros ch Hin. apply isupper_capitals.
  rewrite Forall_forall in Hup. by apply Hup.
Qed.

Lemma existsb_eqb_false (ch : ascii) (l : list ascii) :
  existsb (Ascii.eqb ch) l = false ↔ ch ∉ l.
Proof.
  induction l as [|x l IH]; simpl; [split; [intros _; apply not_elem_of_nil|done]|].
  rewrite orb_false_iff, IH, not_elem_of_cons.
  destruct (Ascii.eqb_spec ch x); intuition congruence.
Qed.

Lemma tried_ok_round (ps : Player.state) :
  tried_ok ps → (Player.round ps ≤ 26)%nat.
Proof.
  intros (Hlen & Hnd & Hup & _).
  pose proof (capitals_bound _ Hnd Hup) as Hb.
  rewrite length_take, Hlen in Hb. unfold MAX_WORD_LENGTH in Hb. lia.
Qed.

Lemma isalpha_toupper (ch : ascii) : isalpha (toupper ch) = isalpha ch.
Proof. destruct ch as [[] [] [] [] [] [] [] []]; reflexivity. Qed.

(** What [fgets] leaves in the first two places of the buffer: the first
    character of the input, and a newline in the second place exactly when
    the line is one character that is not a newline. *)
Lemma fgets_one_char (buf input buf' rest : list ascii) (n : nat) :
  Wordlist.fgets buf (S (S (S n))) input = Some (buf', rest) →
  ∃ ch input',
    input = ch :: input'
    ∧ buf' !!! 0%nat = ch
    ∧ (buf' !!! 1%nat = newline → ch ≠ newline ∧ input' = newline :: rest)
    ∧ (∀ r, ch ≠ newline → input' = newline :: r → buf' !!! 1%nat = newline).
Proof.
  unfold Wordlist.fgets. destruct input as [|ch input']; [done|].
  change (S (S (S n)) - 1)%nat with (S (S n)). cbn [Wordlist.fgets_take].
  destruct (Ascii.eqb_spec ch newline) as [->|Hne].
  { intros [= <- <-]. exists newline, input'. split; [done|]. split; [done|].
    split; [intros [=]|by intros r ?]. }
  destruct input' as [|ch2 input''].
  { intros [= <- <-]. exists ch, [].
    split; [done|]. split; [done|]. split; [intros [=]|by intros r _ ?]. }
  destruct (Ascii.eqb_spec ch2 newline) as [->|Hne2].
  { intros [= <- <-]. exists ch, (newline :: input''). by repeat split. }
  destruct (Wordlist.fgets_take n input'') as [l r] eqn:Htake.
  intros [= <- <-]. exists ch, (ch2 :: input''). split; [done|]. split; [done|].
  split; [intros Heq; by destruct Hne2|intros r' _ [= ? ?]; by destruct Hne2].
Qed.

(** X14. The prompt for a guess, on a state in which the letters tried in
    this round are different capitals: it never writes outside
    [tried_chars], because there are at most 26 of them. A guess is
    accepted exactly when the line read is one letter and a newline and
    the letter, in upper case, has not been tried in this round; it is then
    the next entry of [tried_chars], which stays a list of different
    capitals with zeroes behind. A line that is not one character and a
    newline is refused as more than one letter, a single character that is
    no letter as no valid letter, a letter tried before as tried; a refusal
    leaves [round] and [tried_chars] as they are. The only other outcome is
    the end of the input. *)
Theorem guess_prompt (cs : Client.state) (ps : Player.state) :
  tried_ok ps →
  (Player.round ps ≤ 26)%nat
  ∧ ∃ r, Player.read_guess cs ps = Ret r
    ∧ match r with
      | Player.Accepted cs' ps' =>
          (∃ ch, Player.stdin ps = ch :: newline :: Player.stdin ps'
                 ∧ isalpha ch = true ∧ Client.c cs' = toupper ch)
          ∧ isupper (Client.c cs') = true
          ∧ (Client.c cs' ∉ take (Player.round ps) (Player.tried_chars ps))
          ∧ Player.round ps' = S (Player.round ps)
          ∧ take (Player.round ps') (Player.tried_chars ps')
            = take (Player.round ps) (Player.tried_chars ps) ++ [Client.c cs']
          ∧ tried_ok ps'
      | Player.Rejected m cs' ps' =>
          Player.round ps' = Player.round ps
          ∧ Player.tried_chars ps' = Player.tried_chars ps
          ∧ match m with
            | Player.OnlyOneLetter =>
                Player.stdin ps ≠ []
                ∧ ∀ ch rest, ch ≠ newline →
                             Player.stdin ps ≠ ch :: newline :: rest
            | Player.ValidLetter =>
                ∃ ch, Player.stdin ps = ch :: newline :: Player.stdin ps'
                      ∧ ch ≠ newline ∧ isalpha ch = false
            | Player.NotTriedYet =>
                ∃ ch, Player.stdin ps = ch :: newline :: Player.stdin ps'
                      ∧ isalpha ch = true
                      ∧ toupper ch
                        ∈ take (Player.round ps) (Player.tried_chars ps)
            end
      | Player.EndOfInput => Player.stdin ps = []
      end.
Proof.
  intros Hok. pose proof (tried_ok_round ps Hok) as Hround.
  split; [done|]. destruct Hok as (Hlen & Hnd & Hup & Hzero).
  unfold Player.read_guess.
  destruct (Wordlist.fgets _ _ _) as [[buf' rest]|] eqn:Hget.
  2:{ eexists. split; [done|]. unfold Wordlist.fgets in Hget.
      destruct (Player.stdin ps); [done|].
      by destruct (Wordlist.fgets_take _ _). }
  cbv zeta.
  apply (fgets_one_char _ _ _ _ 77) in Hget
    as (ch & input' & Hin & H0 & H1 & H1').
  rewrite H0.
  destruct (Ascii.eqb_spec (buf' !!! 1%nat) newline) as [Hnl|Hnl]; cbn [negb].
  2:{ eexists. split; [done|]. cbn [Player.round Player.tried_chars].
      split; [done|]. split; [done|]. split; [by rewrite Hin|].
      intros ch' rest' Hch' Heq. rewrite Hin in Heq. injection Heq as <- ->.
      by apply Hnl, (H1' rest'). }
  apply H1 in Hnl as [Hch ->].
  rewrite isalpha_toupper.
  destruct (isalpha ch) eqn:Halpha; cbn [negb].
  2:{ eexists. split; [done|]. cbn [Player.round Player.tried_chars Player.stdin].
      split; [done|]. split; [done|]. by exists ch. }
  destruct (existsb _ _) eqn:Htried.
  { eexists. split; [done|]. cbn [Player.round Player.tried_chars Player.stdin].
    split; [done|]. split; [done|]. exists ch. split; [done|]. split; [done|].
    destruct (decide (toupper ch ∈ take (Player.round ps) (Player.tried_chars ps)))
      as [?|Hnot]; [done|].
    apply existsb_eqb_false in Hnot. congruence. }
  case_decide; [|unfold MAX_WORD_LENGTH in *; lia].
  eexists. split; [done|].
  cbn [Player.round Player.tried_chars Player.stdin Client.c].
  assert (isupper (toupper ch) = true) as Hupper.
  { apply toupper_alpha_upper. by rewrite isalpha_toupper. }
  apply existsb_eqb_false in Htried.
  assert (take (S (Player.round ps))
               (<[Player.round ps := toupper ch]> (Player.tried_chars ps))
          = take (Player.round ps) (Player.tried_chars ps) ++ [toupper ch])
    as Htake.
  { rewrite (take_S_r _ _ (toupper ch)) by (apply list_lookup_insert_eq; lia).
    by rewrite take_insert_ge by lia. }
  split; [by exists ch|].
  split; [done|]. split; [done|]. split; [done|]. split; [done|].
  unfold tried_ok. cbn [Player.round Player.tried_chars].
  rewrite Htake, length_insert.
  split; [done|]. split; [|split].
  - apply NoDup_app. repeat split; [done| |apply NoDup_singleton].
    intros x Hx Hx'. apply list_elem_of_singleton in Hx'. by subst.
  - apply Forall_app. split; [done|]. by constructor.
  - intros j Hj. rewrite list_lookup_total_insert_ne by lia. apply Hzero. lia.
Qed.

(** X15. After a game the answer [y] starts a new round: the game is
    tallied (a win or a loss, by one, as the status says), the status
    becomes New and [round] and [tried_chars] are reset. [fgetc] takes only
    the letter, so the newline typed after it is still in the input: the
    next prompt for a guess reads it as an empty line and refuses it with
    the words for more than one letter. *)
Theorem answer_leaves_newline (cs : Client.state) (ps : Player.state)
    (ch : ascii) (rest : list ascii) :
  Client.game_status cs ≠ game_impossible →
  Client.game_status cs ≠ game_open →
  Player.stdin ps = ch :: newline :: rest →
  Player.tolower ch = "y"%char →
  ∃ cs1 ps1,
    Player.after_response cs ps = Player.Next cs1 ps1
    ∧ Client.game_status cs1 = game_new
    ∧ Client.clientno cs1 = Client.clientno cs
    ∧ tried_ok ps1 ∧ Player.round ps1 = 0%nat
    ∧ Player.wins ps1
      = (if decide (Client.game_status cs = game_won)
         then (Player.wins ps + 1) mod UINT_MODULUS else Player.wins ps)
    ∧ Player.losses ps1
      = (if decide (Client.game_status cs = game_lost)
         then (Player.losses ps + 1) mod UINT_MODULUS else Player.losses ps)
    ∧ Player.stdin ps1 = newline :: rest
    ∧ ∀ cs2, ∃ cs3 ps3,
        Player.read_guess cs2 ps1
        = Ret (Player.Rejected Player.OnlyOneLetter cs3 ps3)
        ∧ Player.stdin ps3 = rest
        ∧ Player.round ps3 = 0%nat.
Proof.
  intros Himp Hopen Hin Hy. unfold Player.after_response.
  case_decide; [done|]. case_decide; [done|]. rewrite Hin, Hy.
  change (Ascii.eqb "y" "y") with true. cbv iota.
  eexists _, _. split; [done|].
  cbn [Client.game_status Client.clientno Player.round Player.wins
       Player.losses Player.stdin Player.tried_chars].
  split; [done|]. split; [done|]. split.
  { unfold tried_ok. cbn [Player.round Player.tried_chars].
    rewrite take_0, length_replicate.
    repeat split; [constructor|constructor|].
    intros j _. destruct (decide (j < MAX_WORD_LENGTH)%nat).
    - by apply lookup_total_replicate_2.
    - rewrite list_lookup_total_alt, lookup_ge_None_2; [done|].
      rewrite length_replicate. lia. }
  repeat split; try done.
  intros cs2. unfold Player.read_guess, Wordlist.fgets. simpl.
    by eexists _, _.
Qed.

(** ** A server without words *)

(** X16. A server started on a dictionary without words never opens a
    game: whatever it has served, a pass that answers a request and goes on
    answers a New request, and the answer is Impossible. *)
Theorem no_words_no_game (buf0 : list ascii) (k : nat)
    (reqs : list (env * (shm → shm))) (st0 st st' : server)
    (sh0 sh req sh' : shm) (tr tr' : list event) (e : env) :
  startup buf0 (replicate k newline) = Ret st0 →
  serve reqs st0 sh0 = Continue st sh tr →
  shm_terminate req = false →
  dispatch e req st = Continue st' sh' tr' →
  shm_status req = game_new
  ∧ shm_status sh' = game_impossible
  ∧ wordcnt st = 0%nat
  ∧ Forall (λ c, secret (current_game c) = None) (clients st').
Proof.
  intros Hstart Hserve Hterm Hd.
  unfold startup in Hstart. rewrite read_blank_lines in Hstart.
  injection Hstart as <-.
  assert (∀ c r c', secret (current_game c) = None →
                    new_game 0 r c = Ret c' →
                    secret (current_game c') = None
                    ∧ status (current_game c') = game_impossible) as Hnew.
  { intros c r c' Hc. unfold new_game. case_decide; [|lia].
    by intros [= <-]. }
  assert (∀ c try c', secret (current_game c) = None →
                      calculate_results c try = Ret c' → False) as Hcalc.
  { intros c try c' Hc. unfold calculate_results. by rewrite Hc. }
  assert (all_sessions [] 0 (λ c, secret (current_game c) = None) st)
    as (Hws & Hwc & Hall).
  { eapply serve_preserves; [| | | |exact Hserve].
    - intros e1 st1 r c' _ Hng. by apply Hnew in Hng as [? _].
    - intros c r c' Hc Hng. by apply (Hnew c r c') in Hng as [? _].
    - intros c try c' Hc Hcr. by destruct (Hcalc c try c').
    - repeat split; (done || constructor). }
  assert (all_sessions [] 0 (λ c, secret (current_game c) = None) st')
    as (_ & _ & Hall').
  { eapply dispatch_preserves; [| | | |exact Hd].
    - intros e1 st1 r c' _ Hng. by apply Hnew in Hng as [? _].
    - intros c r c' Hc Hng. by apply (Hnew c r c') in Hng as [? _].
    - intros c try c' Hc Hcr. by destruct (Hcalc c try c').
    - by repeat split. }
  apply dispatch_update in Hd
    as (pre & cur & suf & count & cur' & Hres & Hupd & -> & -> & _); [|done].
  assert (secret (current_game cur) = None) as Hcur.
  { apply resolve_Some in Hres as [(_ & _ & -> & _)|(_ & Hfind & _)]; [done|].
    apply find_client_Some in Hfind as (Hl & _). rewrite Hl in Hall.
    apply Forall_app in Hall as [_ Hall]. by apply Forall_cons in Hall as [? _]. }
  case_decide as Hst; [|by destruct (Hcalc _ _ _ Hcur Hupd)].
  rewrite Hwc in Hupd. apply (Hnew _ _ _ Hcur) in Hupd as [_ Himp].
  by repeat split.
Qed.

(** ** Clients that leave *)


(** X17. A client that leaves before it has a number, as one does that
    catches a signal before its first exchange, sends the number -1 with the
    terminate flag. The server takes it for a new client: it copies the
    dictionary for it and frees the copy at once. When the dictionary has no
    word, or [malloc] returned a null [next] field for the last node of the
    copy, the pass goes on: the departure has used up a client number, the
    list of sessions is as before, the flag is cleared and the gate the
    client took is posted by the server. Otherwise [wordlist_free] follows
    the link that [wordlist_copy] left unset. *)
Theorem leave_before_registration (e : env) (cs : Client.state) (sh : shm)
    (st : server) :
  Client.clientno cs = -1 →
  sem_post_ok e = true →
  ∃ sh1 tr1,
    Client.free_resources true true cs sh = (sh1, tr1)
    ∧ SemWait clt_sem ∈ tr1
    ∧ posts srv_sem tr1 = 1%nat
    ∧ dispatch e sh1 st
      = (if decide (srv_words st = [] ∨ malloc_next e = Null)
         then Continue (mk_server (srv_words st) (wordcnt st) (clients st)
                                  ((client_count st + 1) mod UINT_MODULUS))
                       (set_terminate false sh1) [SemPost clt_sem]
         else Crash Uninitialised).
Proof.
  intros Hno Hpost. eexists _, _. split; [reflexivity|].
  split; [apply list_elem_of_here|]. split; [reflexivity|].
  unfold dispatch, resolve. cbn [shm_clientno shm_terminate].
  rewrite Hno. change (-1 =? -1) with true. cbn iota beta.
  unfold Wordlist.wordlist_free. rewrite fresh_client_end.
  destruct (srv_words st) as [|w ws] eqn:Hws.
  - rewrite decide_True by by left. by rewrite Hpost.
  - destruct (malloc_next e) eqn:Hnext.
    + rewrite decide_True by by right. by rewrite Hpost.
    + rewrite decide_False; [done|]. by intros [?|?].
Qed.


(** ** The further properties at concrete inputs *)

Lemma new_game_masks_witness :
  ∃ c', new_game 2 5 two_word_client = Ret c'
        ∧ secret (current_game c') = Some (of_string "A DOG")
        ∧ c_str (obscured (current_game c')) = of_string "_ ___"
        ∧ words c' = [of_string "CAT"].
Proof.
  destruct (new_game_masks 2 5 two_word_client) as (v & Hv & Hcase).
  - vm_compute. lia.
  - reflexivity.
  - vm_compute in Hv. injection Hv as <-.
    rewrite decide_True in Hcase by (vm_compute; lia).
    destruct Hcase as (c' & Hnew & Hsec & _ & _ & Hshow & _ & Hwords & _).
    exists c'. split; [exact Hnew|]. split; [exact Hsec|].
    split; [exact Hshow|exact Hwords].
Defined.

Lemma full_guess_wins_witness :
  ∃ c1 c', new_game 2 5 two_word_client = Ret c1
    ∧ guesses (of_string "GODADA") c1 = Ret c'
    ∧ status (current_game c') = game_won
    ∧ c_str (obscured (current_game c')) = of_string "A DOG"
    ∧ errors (current_game c') = 0.
Proof.
  apply (full_guess_wins 2 5 two_word_client (of_string "A DOG")
           (of_string "GODADA")).
  - vm_compute. lia.
  - reflexivity.
  - repeat constructor; vm_compute; lia.
  - reflexivity.
  - change (c_str (of_string "A DOG")) with (of_string "A DOG").
    simpl. rewrite !elem_of_cons, elem_of_nil. intuition discriminate.
  - discriminate.
  - change (c_str (of_string "A DOG")) with (of_string "A DOG").
    simpl. repeat constructor.
  - change (c_str (of_string "A DOG")) with (of_string "A DOG").
    simpl. intros ch. rewrite !elem_of_cons, !elem_of_nil.
    unfold space. intuition congruence.
Defined.

Lemma guess_after_loss_wins_witness :
  ∃ c2, calculate_results lost_cat "Q" = Ret c2
    ∧ status (current_game c2) = game_won
    ∧ obscured (current_game c2) = of_string "CAT" ++ replicate 77 NUL
    ∧ errors (current_game c2) = 9.
Proof.
  apply (guess_after_loss_wins (cat_client (of_string "C__") 8) lost_cat
           (of_string "CAT") "Z" "Q").
  - reflexivity.
  - reflexivity.
  - change (c_str (of_string "CAT")) with (of_string "CAT").
    simpl. rewrite !elem_of_cons, elem_of_nil. intuition discriminate.
  - discriminate.
  - vm_compute. reflexivity.
  - reflexivity.
Defined.

Lemma client_numbers_distinct_witness :
  ∃ st sh tr,
    serve nine_misses cat_server shm_zero = Continue st sh tr
    ∧ NoDup (clientno <$> clients st)
    ∧ Forall (λ c, 0 ≤ clientno c < client_count st) (clients st)
    ∧ client_count st ≤ 10.
Proof.
  destruct (serve nine_misses cat_server shm_zero) as [st sh tr| |] eqn:Hs;
    [|vm_compute in Hs; discriminate Hs..].
  exists st, sh, tr. split; [reflexivity|].
  apply (client_numbers_distinct (replicate Wordlist.MAXLINELEN NUL) cat_file
           nine_misses cat_server st shm_zero sh tr).
  - vm_compute. reflexivity.
  - exact Hs.
  - vm_compute. reflexivity.
Defined.

Lemma other_sessions_untouched_witness :
  ∃ st' sh' tr,
    dispatch quiet_env (guess_request 1 "A" shm_zero) two_sessions
      = Continue st' sh' tr
    ∧ session_of 0 st' = Some (cat_client (of_string "___") 0).
Proof.
  destruct (dispatch quiet_env (guess_request 1 "A" shm_zero) two_sessions)
    as [st' sh' tr| |] eqn:Hd; [|vm_compute in Hd; discriminate Hd..].
  exists st', sh', tr. split; [reflexivity|].
  apply (other_sessions_untouched quiet_env (guess_request 1 "A" shm_zero) sh'
           two_sessions st' tr).
  - unfold ids_distinct. simpl. split; [lia|]. split.
    + repeat constructor; simpl; lia.
    + repeat constructor; rewrite ?elem_of_cons, ?elem_of_nil;
        intuition discriminate.
  - vm_compute. reflexivity.
  - vm_compute. reflexivity.
  - vm_compute. discriminate.
  - exact Hd.
Defined.

Lemma one_post_per_request_witness :
  ∃ st sh tr,
    serve nine_misses cat_server shm_zero = Continue st sh tr
    ∧ (posts clt_sem tr + posts ret_sem tr)%nat = 10%nat
    ∧ length tr = 10%nat
    ∧ posts srv_sem tr = 0%nat.
Proof.
  destruct (serve nine_misses cat_server shm_zero) as [st sh tr| |] eqn:Hs;
    [|vm_compute in Hs; discriminate Hs..].
  exists st, sh, tr. split; [reflexivity|].
  apply (one_post_per_request nine_misses cat_server st shm_zero sh tr Hs).
Defined.



Lemma guess_before_registration_witness :
  dispatch quiet_env (guess_request (-1) "A" shm_zero) cat_server
    = Crash Uninitialised.
Proof.
  apply (guess_before_registration quiet_env (guess_request (-1) "A" shm_zero)
           cat_server); [reflexivity|reflexivity|discriminate].
Defined.

Lemma first_contact_witness :
  ∃ c' sh',
    dispatch quiet_env (new_request (-1) shm_zero) cat_server
      = Continue (mk_server [of_string "CAT"] 1 [c'] 1) sh' [SemPost ret_sem]
    ∧ shm_clientno sh' = 0
    ∧ shm_status sh' = game_open
    ∧ shm_errors sh' = 0
    ∧ c_str (shm_word sh') = of_string "___".
Proof.
  destruct (first_contact quiet_env (new_request (-1) shm_zero) cat_server)
    as (w & c' & sh' & Hw & Hd & _ & _ & _ & _ & Hno & Hst & Herr & Hword).
  - reflexivity.
  - reflexivity.
  - reflexivity.
  - reflexivity.
  - vm_compute. lia.
  - reflexivity.
  - repeat constructor; vm_compute; lia.
  - vm_compute in Hw. injection Hw as <-.
    exists c', sh'. split; [exact Hd|]. split; [exact Hno|].
    split; [exact Hst|]. split; [exact Herr|exact Hword].
Defined.

Lemma exchange_round_trip_witness :
  ∃ cs' st' sh' cur,
    exchange quiet_env Client.initial cat_server shm_zero = Some (cs', st', sh')
    ∧ cur ∈ clients st'
    ∧ Client.clientno cs' = clientno cur
    ∧ Client.game_status cs' = status (current_game cur)
    ∧ Client.errors cs' = errors (current_game cur).
Proof.
  destruct (exchange quiet_env Client.initial cat_server shm_zero)
    as [[[cs' st'] sh']|] eqn:He; [|vm_compute in He; discriminate He].
  destruct (exchange_round_trip quiet_env Client.initial cs' cat_server st'
              shm_zero sh' He) as (pre & cur & suf & Hl & Hno & Hst & Herr & _).
  exists cs', st', sh', cur. split; [reflexivity|].
  split; [rewrite Hl, elem_of_app, elem_of_cons; auto|].
  split; [exact Hno|]. split; [exact Hst|exact Herr].
Defined.

Lemma one_word_dictionary_witness :
  Wordlist.wordlist_read (replicate Wordlist.MAXLINELEN NUL)
    (of_string "
c-a t!


") [] = Ret ([of_string "CA T"], 1%nat).
Proof.
  apply (one_word_dictionary (replicate Wordlist.MAXLINELEN NUL)
           (of_string "c-a t!") 1 2).
  - simpl. rewrite !elem_of_cons, elem_of_nil. intuition discriminate.
  - simpl. rewrite !elem_of_cons, elem_of_nil. intuition discriminate.
  - discriminate.
  - vm_compute. lia.
Defined.

Lemma guess_prompt_witness :
  ∃ cs' ps',
    Player.read_guess playing (Player.initial (of_string "a
")) = Ret (Player.Accepted cs' ps')
    ∧ Client.c cs' = "A"%char
    ∧ Player.round ps' = 1%nat
    ∧ tried_ok ps'.
Proof.
  destruct (guess_prompt playing (Player.initial (of_string "a
"))) as (_ & r & Hr & Hacc).
  - unfold tried_ok, Player.initial. simpl. split; [reflexivity|].
    split; [constructor|]. split; [constructor|].
    intros j _. do 80 (destruct j as [|j]; [reflexivity|]). reflexivity.
  - vm_compute in Hr. injection Hr as <-.
    destruct Hacc as (_ & _ & _ & Hround & _ & Hok).
    eexists _, _. split; [vm_compute; reflexivity|]. split; [reflexivity|].
    split; [exact Hround|exact Hok].
Defined.

Lemma answer_leaves_newline_witness :
  ∃ cs1 ps1 cs3 ps3,
    Player.after_response winner
      (Player.mk_state 3 (of_string "CAT" ++ replicate 77 NUL) 0 0
         (of_string "y
A
")) = Player.Next cs1 ps1
    ∧ Client.game_status cs1 = game_new
    ∧ Player.wins ps1 = 1
    ∧ Player.read_guess playing ps1
      = Ret (Player.Rejected Player.OnlyOneLetter cs3 ps3)
    ∧ Player.stdin ps3 = of_string "A
".
Proof.
  destruct (answer_leaves_newline winner
              (Player.mk_state 3 (of_string "CAT" ++ replicate 77 NUL) 0 0
                 (of_string "y
A
")) "y" (of_string "A
")) as (cs1 & ps1 & Hnext & Hst & _ & _ & _ & Hwins & _ & _ & Hread).
  - discriminate.
  - discriminate.
  - reflexivity.
  - reflexivity.
  - destruct (Hread playing) as (cs3 & ps3 & Hrej & Hin & _).
    exists cs1, ps1, cs3, ps3. split; [exact Hnext|]. split; [exact Hst|].
    split; [exact Hwins|]. split; [exact Hrej|exact Hin].
Defined.

Lemma no_words_no_game_witness :
  ∃ st' sh' tr',
    dispatch quiet_env (new_request (-1) shm_zero) (mk_server [] 0 [] 0)
      = Continue st' sh' tr'
    ∧ shm_status sh' = game_impossible
    ∧ Forall (λ c, secret (current_game c) = None) (clients st').
Proof.
  destruct (dispatch quiet_env (new_request (-1) shm_zero) (mk_server [] 0 [] 0))
    as [st' sh' tr'| |] eqn:Hd; [|vm_compute in Hd; discriminate Hd..].
  destruct (no_words_no_game (replicate Wordlist.MAXLINELEN NUL) 2 []
              (mk_server [] 0 [] 0) (mk_server [] 0 [] 0) st' shm_zero shm_zero
              (new_request (-1) shm_zero) sh' [] tr' quiet_env)
    as (_ & Himp & _ & Hnone).
  - vm_compute. reflexivity.
  - reflexivity.
  - reflexivity.
  - exact Hd.
  - exists st', sh', tr'. split; [reflexivity|]. split; [exact Himp|exact Hnone].
Defined.

Lemma leave_before_registration_witness :
  dispatch quiet_env (terminate_request (-1) shm_zero) cat_session
  = Continue (mk_server [of_string "CAT"] 1 [cat_client (of_string "___") 0] 2)
             (set_terminate false (terminate_request (-1) shm_zero))
             [SemPost clt_sem]
  ∧ dispatch stale_env (terminate_request (-1) shm_zero) cat_session
    = Crash Uninitialised.
Proof.
  split.
  - destruct (leave_before_registration quiet_env
                (Client.mk_state (-1) game_open NUL 0 []) shm_zero cat_session)
      as (sh1 & tr1 & Hfree & _ & _ & Hd); [reflexivity|reflexivity|].
    injection Hfree as <- _. exact Hd.
  - destruct (leave_before_registration stale_env
                (Client.mk_state (-1) game_open NUL 0 []) shm_zero cat_session)
      as (sh1 & tr1 & Hfree & _ & _ & Hd); [reflexivity|reflexivity|].
    injection Hfree as <- _. exact Hd.
Defined.

